(** * vt_utils::ustring — a shallow embedding of src/utils/ustring.cpp

    The 16-bit string class [ustring] (a [std::vector<uint16_t>] that always
    carries a trailing 0) and the two conversion functions
    [MakeUnicodeString] / [MakeStandardString].

    Conventions of the embedding:
    - [size_t] values are integers in [0, 2^64); every arithmetic expression
      the source evaluates in [size_t] is wrapped with [to_size_t];
    - [uint16_t] values are integers, narrowed with [to_uint16] where the
      source narrows;
    - a [std::vector<uint16_t>] is a [list Z], a [std::string] a [list byte];
    - a call either returns, throws a C++ exception, or has undefined
      behaviour (an out-of-bounds read, a dangling pointer): [outcome];
    - memory is unbounded: growing a vector never fails, only a request
      beyond [max_size()] is refused ([reserve]). *)

From Stdlib Require Import ZArith List Bool Lia.
From Stdlib.Strings Require Import Byte.
Import ListNotations.
Local Open Scope Z_scope.

(** ** Machine integers *)

Definition size_t_bits : Z := 64.
Definition SIZE_MAX : Z := 2 ^ size_t_bits - 1.
Definition to_size_t (z : Z) : Z := z mod 2 ^ size_t_bits.
Definition to_uint16 (z : Z) : Z := z mod 2 ^ 16.

(** [std::vector<uint16_t>::max_size()]: the largest element count the
    container accepts, [PTRDIFF_MAX / sizeof(uint16_t)]. *)
Definition PTRDIFF_MAX : Z := 2 ^ (size_t_bits - 1) - 1.
Definition max_size : Z := PTRDIFF_MAX / 2.

(** ** Outcomes of a call *)

Inductive exn : Type :=
| out_of_range   (* std::out_of_range *)
| length_error.  (* std::length_error *)

Inductive outcome (A : Type) : Type :=
| Ret (a : A)
| Throw (e : exn)
| Undefined.
Arguments Ret {A} a.
Arguments Throw {A} e.
Arguments Undefined {A}.

Definition bind {A B : Type} (m : outcome A) (k : A -> outcome B) : outcome B :=
  match m with
  | Ret a => k a
  | Throw e => Throw e
  | Undefined => Undefined
  end.

Notation "x <- m ;; k" := (bind m (fun x => k))
  (at level 61, m at next level, right associativity).

(** ** std::vector primitives *)

Definition size {A : Type} (v : list A) : Z := Z.of_nat (List.length v).

(** [v[i]]: defined inside the vector only. *)
Definition vec_get {A : Type} (v : list A) (i : Z) : outcome A :=
  match nth_error v (Z.to_nat i) with
  | Some x => Ret x
  | None => Undefined
  end.

(** [v[i] = x]: defined inside the vector only. *)
Fixpoint list_update {A : Type} (v : list A) (i : nat) (x : A) : list A :=
  match v, i with
  | [], _ => []
  | _ :: t, O => x :: t
  | h :: t, S i' => h :: list_update t i' x
  end.

Definition vec_set {A : Type} (v : list A) (i : Z) (x : A) : outcome (list A) :=
  if (0 <=? i) && (i <? size v) then Ret (list_update v (Z.to_nat i) x)
  else Undefined.

(** [v.insert(v.begin() + i, xs.begin(), xs.end())]. *)
Definition vec_insert {A : Type} (v : list A) (i : Z) (xs : list A) : outcome (list A) :=
  if (0 <=? i) && (i <=? size v)
  then Ret (firstn (Z.to_nat i) v ++ xs ++ skipn (Z.to_nat i) v)
  else Undefined.

(** The elements of the iterator range [v.begin() + first, v.begin() + last). *)
Definition vec_range {A : Type} (v : list A) (first last : Z) : outcome (list A) :=
  if (0 <=? first) && (first <=? last) && (last <=? size v)
  then Ret (firstn (Z.to_nat (last - first)) (skipn (Z.to_nat first) v))
  else Undefined.

(** [v.reserve(k)]: no effect on the contents; throws beyond [max_size]. *)
Definition vec_reserve (k : Z) : outcome unit :=
  if k >? max_size then Throw length_error else Ret tt.

(** ** The ustring class *)

Record ustring : Type := mk_ustring { _str : list Z }.

(** const size_t ustring::npos = ~0; *)
Definition npos : Z := to_size_t (Z.lnot 0).

(** Modelled from the spec: ustring.h is not part of the sources;
    [length()] "returns logical length (unit count excluding sentinel)",
    computed in [size_t] from the storage size. *)
Definition length (s : ustring) : Z := to_size_t (size (_str s) - 1).

(** Modelled from the spec: ustring.h is not part of the sources;
    [empty()] is "length() == 0". *)
Definition empty (s : ustring) : bool := length s =? 0.

(** Modelled from the spec: ustring.h is not part of the sources;
    [operator[]] "returns the code unit at position i" with the
    "raw-buffer indexing semantics of the source": an index into the
    storage vector, the sentinel's slot included. *)
Definition index (s : ustring) (pos : Z) : outcome Z := vec_get (_str s) pos.

(** ustring::ustring() *)
Definition ustring_new : ustring := mk_ustring [0].

(** The first loop of the constructor from a unit pointer: count the units
    before the terminating 0.  [mem] is the array [s] points into, from
    [s] to the end of the allocation; running off its end is undefined. *)
Fixpoint count_units (mem : list Z) (i : Z) : outcome Z :=
  match mem with
  | [] => Undefined
  | u :: rest => if u =? 0 then Ret i else count_units rest (to_size_t (i + 1))
  end.

(** The second loop: push the units back until the terminating 0. *)
Fixpoint copy_units (mem : list Z) (acc : list Z) : outcome (list Z) :=
  match mem with
  | [] => Undefined
  | u :: rest => if u =? 0 then Ret acc else copy_units rest (acc ++ [u])
  end.

(** ustring::ustring(const uint16_t *s); [None] is the null pointer. *)
Definition ustring_of_ptr (s : option (list Z)) : outcome ustring :=
  match s with
  | None => Ret (mk_ustring [0])
  | Some mem =>
      i <- count_units mem 0 ;;
      _ <- vec_reserve i ;;
      str <- copy_units mem [] ;;
      Ret (mk_ustring (str ++ [0]))
  end.

(** ustring ustring::substr(size_t pos, size_t n) const *)
Definition substr (this : ustring) (pos n : Z) : outcome ustring :=
  let len := length this in
  if pos >=? len then Throw out_of_range
  else
    let n := if (n =? SIZE_MAX) || (to_size_t (pos + n) >? len)
             then to_size_t (len - pos) else n in
    _ <- vec_reserve (to_size_t (n + 1)) ;;
    units <- vec_range (_str this) pos (pos + n) ;;
    Ret (mk_ustring (units ++ [0])).

(** ustring& ustring::operator += (uint16_t c) *)
Definition append_unit (this : ustring) (c : Z) : outcome ustring :=
  str <- vec_insert (_str this) (size (_str this) - 1) [c] ;;
  Ret (mk_ustring str).

(** ustring& ustring::operator += (const ustring &s); [s] is an object
    distinct from [*this]. *)
Definition append (this s : ustring) : outcome ustring :=
  if empty s then Ret this
  else
    units <- vec_range (_str s) 0 (size (_str s) - 1) ;;
    str <- vec_insert (_str this) (size (_str this) - 1) units ;;
    Ret (mk_ustring str).

(** ustring ustring::operator + (const ustring &s) const *)
Definition concat (this s : ustring) : outcome ustring :=
  let temp := this in
  append temp s.

(** bool ustring::operator == (const ustring &s) const *)
Definition ustring_eqb (this s : ustring) : bool :=
  if list_eq_dec Z.eq_dec (_str s) (_str this) then true else false.

(** The loop of ustring::find(uint16_t, size_t): [remaining] is [len - j],
    the number of iterations left. *)
Fixpoint find_unit_loop (this : ustring) (c : Z) (j : Z) (remaining : nat) : outcome Z :=
  match remaining with
  | O => Ret npos
  | S r =>
      u <- vec_get (_str this) j ;;
      if u =? c then Ret j
      else find_unit_loop this c (j + 1) r
  end.

(** size_t ustring::find(uint16_t c, size_t pos) const *)
Definition find_unit (this : ustring) (c : Z) (pos : Z) : outcome Z :=
  let len := length this in
  find_unit_loop this c pos (Z.to_nat (len - pos)).

(** The loop of ustring::find(const ustring&, size_t). *)
Fixpoint find_loop (this s : ustring) (total_chars : Z)
         (j chars_found : Z) (remaining : nat) : outcome Z :=
  match remaining with
  | O => Ret npos
  | S r =>
      a <- vec_get (_str this) j ;;
      b <- index s chars_found ;;
      if a =? b then
        let chars_found := to_size_t (chars_found + 1) in
        if chars_found =? total_chars
        then Ret (to_size_t (j - chars_found + 1))
        else find_loop this s total_chars (j + 1) chars_found r
      else
        find_loop this s total_chars (j + 1) 0 r
  end.

(** size_t ustring::find(const ustring &s, size_t pos) const *)
Definition find (this s : ustring) (pos : Z) : outcome Z :=
  let len := length this in
  let total_chars := length s in
  let chars_found := 0 in
  find_loop this s total_chars pos chars_found (Z.to_nat (len - pos)).

(** ** Conversions between std::string and ustring *)

Definition std_string : Type := list byte.

Definition Z_of_byte (b : byte) : Z := Z.of_N (Byte.to_N b).

(** static_cast<unsigned char>(z) *)
Definition byte_of_Z (z : Z) : byte :=
  match Byte.of_N (Z.to_N (z mod 256)) with
  | Some b => b
  | None => "000"%byte
  end.

(** The host the code is built for, and the iconv library it links to. *)
Record platform : Type := mk_platform {
  (** SDL_BYTEORDER == SDL_BIG_ENDIAN *)
  big_endian : bool;
  (** plain [char] is a signed type *)
  char_is_signed : bool;
  (** the capacity of a [std::vector] constructed with [n] elements *)
  initial_capacity : Z -> Z;
  (** [iconv_open(UTF_16_ICONV_NAME, "UTF-8")] returned a converter *)
  iconv_open_ok : bool;
  (** [iconv] on the source bytes (terminating zero byte included): whether
      it succeeded, and the 16-bit units it stored at [dest] before
      returning *)
  iconv : list byte -> bool * list Z
}.

Definition UTF_16_BOM_STD : Z := 0xFEFF.
Definition UTF_16_BOM_REV : Z := 0xFFFE.

(** The units [iconv] stored, laid over the start of [dest]; [iconv] stops
    at [destLen] bytes. *)
Definition store_units (dest written : list Z) (destLen : Z) : list Z :=
  let w := firstn (Z.to_nat (destLen / 2)) written in
  w ++ skipn (List.length w) dest.

(** static bool UTF8ToUTF16(const std::string& source, uint16_t *dest):
    the returned flag and the array at [dest] afterwards. *)
Definition UTF8ToUTF16 (p : platform) (source : std_string) (dest : list Z)
  : bool * list Z :=
  match source with
  | [] => (true, dest)
  | _ =>
      if negb (iconv_open_ok p) then (false, dest)
      else
        let destLen := to_size_t ((size source + 1) * 2) in
        let '(ok, written) := iconv p (source ++ ["000"%byte]) in
        (ok, store_units dest written destLen)
  end.

(** [text[c]] on a const std::string: the terminating zero at [size()]. *)
Definition string_get (text : std_string) (c : Z) : outcome byte :=
  if c =? size text then Ret "000"%byte else vec_get text c.

(** The conversion of a [char] to [uint16_t]. *)
Definition uint16_of_char (p : platform) (b : byte) : Z :=
  let v := Z_of_byte b in
  to_uint16 (if char_is_signed p && (128 <=? v) then v - 256 else v).

(** The byte swap of the big-endian pass:
    for (c < length) if (utf16String[c] & 0xFF80) swap the two bytes. *)
Fixpoint swap_loop (ubuff : list Z) (off c : Z) (remaining : nat) : outcome (list Z) :=
  match remaining with
  | O => Ret ubuff
  | S r =>
      u <- vec_get ubuff (off + c) ;;
      ubuff <- (if Z.land u 0xFF80 =? 0 then Ret ubuff
                else vec_set ubuff (off + c)
                       (to_uint16 (Z.lor (Z.shiftl u 8) (Z.shiftr u 8)))) ;;
      swap_loop ubuff off (c + 1) r
  end.

(** [ubuff.push_back(x)]: [in_place] records that no push_back so far had to
    reallocate, which is what keeps a pointer into the vector valid. *)
Definition push_back (cap : Z) (st : list Z * bool) (x : Z) : list Z * bool :=
  let '(ubuff, in_place) := st in
  (ubuff ++ [x], in_place && (size ubuff <? cap)).

(** The fallback loop: for (c < length) ubuff.push_back(text[c]). *)
Fixpoint widen_loop (p : platform) (text : std_string) (cap : Z)
         (st : list Z * bool) (c : Z) (remaining : nat) : outcome (list Z * bool) :=
  match remaining with
  | O => Ret st
  | S r =>
      b <- string_get text c ;;
      widen_loop p text cap (push_back cap st (uint16_of_char p b)) (c + 1) r
  end.

(** ustring MakeUnicodeString(const std::string& text) *)
Definition MakeUnicodeString (p : platform) (text : std_string) : outcome ustring :=
  let length := to_size_t (size text + 1) in
  let ubuff := repeat 0 (Z.to_nat length) in
  let cap := initial_capacity p length in
  _ <- vec_reserve length ;;
  (* utf16String = &ubuff[0] *)
  let '(ok, ubuff) := UTF8ToUTF16 p text ubuff in
  if ok then
    u0 <- vec_get ubuff 0 ;;
    off <- (if (u0 =? UTF_16_BOM_STD) || (u0 =? UTF_16_BOM_REV)
            then _ <- vec_get ubuff 1 ;; Ret 1
            else Ret 0) ;;
    ubuff <- (if big_endian p then swap_loop ubuff off 0 (Z.to_nat length)
              else Ret ubuff) ;;
    ustring_of_ptr (Some (skipn (Z.to_nat off) ubuff))
  else
    st <- widen_loop p text cap (ubuff, true) 0 (Z.to_nat length) ;;
    let '(ubuff, in_place) := push_back cap st 0 in
    if in_place then ustring_of_ptr (Some ubuff) else Undefined.

(** The loop of MakeStandardString. *)
Fixpoint narrow_loop (text : ustring) (strbuff : list byte) (c : Z) (remaining : nat)
  : outcome (list byte) :=
  match remaining with
  | O => Ret strbuff
  | S r =>
      curr_char <- index text c ;;
      strbuff <- (if curr_char >? 0xff
                  then vec_set strbuff c "?"%byte
                  else vec_set strbuff c (byte_of_Z curr_char)) ;;
      narrow_loop text strbuff (c + 1) r
  end.

(** std::string(const char *s): the bytes before the first zero byte of the
    array [s] points into. *)
Fixpoint string_of_c_str (mem : list byte) : outcome std_string :=
  match mem with
  | [] => Undefined
  | b :: rest =>
      if Byte.eqb b "000"%byte then Ret []
      else r <- string_of_c_str rest ;; Ret (b :: r)
  end.

(** std::string MakeStandardString(const ustring &text) *)
Definition MakeStandardString (text : ustring) : outcome std_string :=
  let length := length text in
  let strbuff := repeat "000"%byte (Z.to_nat (to_size_t (length + 1))) in
  strbuff <- narrow_loop text strbuff 0 (Z.to_nat length) ;;
  string_of_c_str strbuff.

(** ** The class invariant and the logical content *)

(** The storage is never empty and its last element is the sentinel 0. *)
Definition sentinel_inv (s : ustring) : Prop :=
  _str s <> [] /\ last (_str s) 1 = 0.

(** The container's own guarantee: [size() <= max_size()]. *)
Definition representable (s : ustring) : Prop := size (_str s) <= max_size.

(** The logical content: the storage without its last element. *)
Definition units (s : ustring) : list Z := removelast (_str s).

(** A value of type [uint16_t]. *)
Definition is_uint16 (u : Z) : Prop := 0 <= u < 2 ^ 16.

Definition nonzero (u : Z) : Prop := u <> 0.

(** The byte the spec gives for one code unit: ['?'] above 0xFF, the unit
    narrowed to one byte otherwise. *)
Definition narrow_unit (u : Z) : byte :=
  if u >? 0xff then "?"%byte else byte_of_Z u.

(** The units that precede the first zero unit. *)
Fixpoint before_zero (us : list Z) : list Z :=
  match us with
  | [] => []
  | u :: rest => if u =? 0 then [] else u :: before_zero rest
  end.

(** The buffer the spec's byte-widening gives: one zero-extended unit per
    input byte, then the sentinel. *)
Definition widened (text : std_string) : ustring :=
  mk_ustring (map Z_of_byte text ++ [0]).

(** Example hosts.  A vector constructed with [n] elements has capacity [n]
    on the usual implementations. *)
Definition exact_capacity (n : Z) : Z := n.

(** A little-endian host on which [iconv_open] fails. *)
Definition host_without_iconv : platform :=
  mk_platform false true exact_capacity false (fun _ => (false, [])).

(** The same host with a vector implementation that over-allocates. *)
Definition host_without_iconv_roomy : platform :=
  mk_platform false true (fun n => 4 * n) false (fun _ => (false, [])).

(** Hosts whose [iconv] stores the unit 0x41 and then reports a failure. *)
Definition host_iconv_fails : platform :=
  mk_platform false true exact_capacity true (fun _ => (false, [0x41])).

Definition host_iconv_fails_roomy : platform :=
  mk_platform false true (fun n => 4 * n) true (fun _ => (false, [0x41])).

(** Hosts whose [iconv] turns the input into a byte-order mark, the unit
    0x61 and the terminator. *)
Definition host_le_bom : platform :=
  mk_platform false true exact_capacity true (fun _ => (true, [0xFEFF; 0x61; 0])).

Definition host_be_bom : platform :=
  mk_platform true true exact_capacity true (fun _ => (true, [0xFEFF; 0x61; 0])).

(** The units of [s] from [k] on agree with the first [m] units of [pat]. *)
Definition occurs_at (s pat : ustring) (k m : Z) : Prop :=
  forall i, 0 <= i < m ->
            exists u, index s (k + i) = Ret u /\ index pat i = Ret u.

(** What the big-endian pass makes of one unit: a unit with a bit in 0xFF80
    has its two bytes exchanged. *)
Definition swap_if_high (u : Z) : Z :=
  if Z.land u 0xFF80 =? 0 then u
  else to_uint16 (Z.lor (Z.shiftl u 8) (Z.shiftr u 8)).

(** A non-zero 7-bit byte. *)
Definition is_ascii (b : byte) : Prop := 0 < Z_of_byte b < 128.

(** Hosts whose [iconv] maps every byte to the unit of the same value, as a
    real one does on 7-bit input. *)
Definition host_ascii_le : platform :=
  mk_platform false true exact_capacity true (fun src => (true, map Z_of_byte src)).

Definition host_ascii_be : platform :=
  mk_platform true true exact_capacity true (fun src => (true, map Z_of_byte src)).

(** A big-endian host whose [iconv] stores the units of "A" and U+00E9. *)
Definition host_be_accent : platform :=
  mk_platform true true exact_capacity true (fun _ => (true, [0x41; 0xE9; 0])).

(** * Properties *)

(** The invariant of a buffer given by its storage. *)
Ltac inv_by_computation := split; [discriminate | reflexivity].

(** ** Arithmetic of the machine types *)

Lemma size_t_modulus : 2 ^ size_t_bits = 18446744073709551616.
Proof. reflexivity. Qed.

Lemma SIZE_MAX_value : SIZE_MAX = 18446744073709551615.
Proof. reflexivity. Qed.

Lemma max_size_value : max_size = 4611686018427387903.
Proof. reflexivity. Qed.

Lemma npos_value : npos = SIZE_MAX.
Proof. reflexivity. Qed.

Lemma to_size_t_small (z : Z) : 0 <= z <= SIZE_MAX -> to_size_t z = z.
Proof.
  intros H. unfold to_size_t. rewrite SIZE_MAX_value in H.
  rewrite size_t_modulus. apply Z.mod_small. lia.
Qed.

Lemma to_size_t_le (z : Z) : 0 <= z -> to_size_t z <= z.
Proof.
  intros H. unfold to_size_t. rewrite size_t_modulus.
  apply Z.mod_le; lia.
Qed.

Lemma gtb_false (a b : Z) : a <= b -> (a >? b) = false.
Proof. intros H. rewrite Z.gtb_ltb. now apply Z.ltb_ge. Qed.

Lemma gtb_true (a b : Z) : b < a -> (a >? b) = true.
Proof. intros H. rewrite Z.gtb_ltb. now apply Z.ltb_lt. Qed.

Lemma geb_false (a b : Z) : a < b -> (a >=? b) = false.
Proof. intros H. rewrite Z.geb_leb. now apply Z.leb_gt. Qed.

Lemma size_nonneg {A : Type} (v : list A) : 0 <= size v.
Proof. unfold size. lia. Qed.

Lemma size_app {A : Type} (v w : list A) : size (v ++ w) = size v + size w.
Proof. unfold size. rewrite length_app. lia. Qed.

Lemma size_cons {A : Type} (x : A) (v : list A) : size (x :: v) = 1 + size v.
Proof. unfold size. cbn [List.length]. lia. Qed.

Lemma size_nil_iff {A : Type} (v : list A) : size v = 0 <-> v = [].
Proof.
  unfold size. destruct v; cbn [List.length]; split; intros H;
    try reflexivity; try discriminate; lia.
Qed.

(** ** The invariant, unfolded *)

Lemma sentinel_inv_iff (s : ustring) :
  sentinel_inv s <-> exists us, _str s = us ++ [0].
Proof.
  unfold sentinel_inv. split.
  - intros [Hne Hlast]. exists (removelast (_str s)).
    rewrite (app_removelast_last 1 Hne) at 1. now rewrite Hlast.
  - intros [us ->]. split.
    + now destruct us.
    + apply last_last.
Qed.

Lemma sentinel_inv_units (s : ustring) :
  sentinel_inv s -> _str s = units s ++ [0].
Proof.
  intros H. destruct (proj1 (sentinel_inv_iff s) H) as [us Hus].
  unfold units. rewrite Hus. now rewrite removelast_last.
Qed.

Lemma sentinel_inv_size (s : ustring) :
  sentinel_inv s -> size (_str s) = size (units s) + 1.
Proof.
  intros H. rewrite (sentinel_inv_units s H) at 1. now rewrite size_app.
Qed.

Lemma length_le_units (s : ustring) :
  sentinel_inv s -> length s <= size (units s).
Proof.
  intros H. unfold length. rewrite (sentinel_inv_size s H).
  pose proof (size_nonneg (units s)).
  replace (size (units s) + 1 - 1) with (size (units s)) by lia.
  now apply to_size_t_le.
Qed.

Lemma length_units (s : ustring) :
  sentinel_inv s -> representable s -> length s = size (units s).
Proof.
  intros H Hr. unfold length, representable in *.
  rewrite (sentinel_inv_size s H) in *.
  pose proof (size_nonneg (units s)). rewrite max_size_value in Hr.
  replace (size (units s) + 1 - 1) with (size (units s)) by lia.
  apply to_size_t_small. rewrite SIZE_MAX_value. lia.
Qed.

(** ** Indexing *)

Lemma vec_get_nth {A : Type} (v : list A) (i : Z) (d : A) :
  0 <= i < size v -> vec_get v i = Ret (nth (Z.to_nat i) v d).
Proof.
  intros H. unfold vec_get, size in *.
  destruct (nth_error v (Z.to_nat i)) as [x|] eqn:E.
  - now rewrite (nth_error_nth v _ d E).
  - apply nth_error_None in E. lia.
Qed.

Lemma vec_get_outside {A : Type} (v : list A) (i : Z) :
  size v <= i -> vec_get v i = Undefined.
Proof.
  intros H. unfold vec_get, size in *.
  destruct (nth_error v (Z.to_nat i)) as [x|] eqn:E; [|reflexivity].
  assert (Hlt : (Z.to_nat i < List.length v)%nat)
    by (apply nth_error_Some; congruence).
  lia.
Qed.

Lemma vec_get_app_l {A : Type} (v w : list A) (i : Z) :
  0 <= i < size v -> vec_get (v ++ w) i = vec_get v i.
Proof.
  intros H. unfold vec_get, size in *. rewrite nth_error_app1 by lia. reflexivity.
Qed.

Lemma vec_get_app_r {A : Type} (v w : list A) (i : Z) :
  size v <= i -> vec_get (v ++ w) i = vec_get w (i - size v).
Proof.
  intros H. unfold vec_get, size in *. rewrite nth_error_app2 by lia.
  replace (Z.to_nat (i - Z.of_nat (List.length v)))
    with (Z.to_nat i - List.length v)%nat by lia.
  reflexivity.
Qed.

Lemma vec_get_nth_error {A : Type} (v : list A) (i : Z) (x : A) :
  vec_get v i = Ret x <-> nth_error v (Z.to_nat i) = Some x.
Proof.
  unfold vec_get. destruct (nth_error v (Z.to_nat i)); split;
    intros H; try discriminate; congruence.
Qed.

Lemma index_units (s : ustring) (i : Z) :
  sentinel_inv s -> 0 <= i < size (units s) ->
  index s i = vec_get (units s) i.
Proof.
  intros Hinv Hi. unfold index. rewrite (sentinel_inv_units s Hinv) at 1.
  now apply vec_get_app_l.
Qed.

(** ** SearchOps: find of a single unit *)

Section FindUnitLoop.
Variables (s : ustring) (c : Z).

Lemma find_unit_loop_absent :
  forall (r : nat) (j : Z),
    0 <= j -> j + Z.of_nat r <= size (_str s) ->
    (forall k, j <= k < j + Z.of_nat r -> index s k <> Ret c) ->
    find_unit_loop s c j r = Ret npos.
Proof.
  induction r as [|r IH]; intros j Hj Hb Habs; [reflexivity|].
  cbn [find_unit_loop].
  rewrite (vec_get_nth _ j 0) by lia. cbn [bind].
  destruct (Z.eqb_spec (nth (Z.to_nat j) (_str s) 0) c) as [E|E].
  - exfalso. apply (Habs j); [lia|].
    unfold index. rewrite (vec_get_nth _ j 0) by lia. now rewrite E.
  - apply IH; try lia. intros k Hk. apply Habs. lia.
Qed.

Lemma find_unit_loop_first :
  forall (r : nat) (j k : Z),
    0 <= j -> j + Z.of_nat r <= size (_str s) ->
    j <= k < j + Z.of_nat r ->
    index s k = Ret c ->
    (forall k', j <= k' < k -> index s k' <> Ret c) ->
    find_unit_loop s c j r = Ret k.
Proof.
  induction r as [|r IH]; intros j k Hj Hb Hk Hat Hbefore; [lia|].
  cbn [find_unit_loop].
  rewrite (vec_get_nth _ j 0) by lia. cbn [bind].
  destruct (Z.eqb_spec (nth (Z.to_nat j) (_str s) 0) c) as [E|E].
  - destruct (Z.eq_dec j k) as [->|Hne]; [reflexivity|].
    exfalso. apply (Hbefore j); [lia|].
    unfold index. rewrite (vec_get_nth _ j 0) by lia. now rewrite E.
  - assert (j <> k).
    { intros Hjk. subst j. unfold index in Hat.
      rewrite (vec_get_nth _ k 0) in Hat by lia. congruence. }
    apply IH; try lia; [exact Hat|].
    intros k' Hk'. apply Hbefore. lia.
Qed.

End FindUnitLoop.

(** C9: [find(c, from)] returns the smallest index [k] with
    [from <= k < length()] whose unit is [c] when there is one, and the
    not-found value [npos] when there is none. *)
Theorem find_unit_first_occurrence (s : ustring) (c from : Z) :
  sentinel_inv s -> 0 <= from ->
  (forall k, from <= k < length s -> index s k = Ret c ->
     (forall k', from <= k' < k -> index s k' <> Ret c) ->
     find_unit s c from = Ret k)
  /\ ((forall k, from <= k < length s -> index s k <> Ret c) ->
      find_unit s c from = Ret npos).
Proof.
  intros Hinv Hfrom.
  pose proof (length_le_units s Hinv) as Hl.
  pose proof (sentinel_inv_size s Hinv) as Hs.
  unfold find_unit. split.
  - intros k Hk Hat Hbefore.
    apply find_unit_loop_first; try assumption; lia.
  - intros Habs.
    destruct (Z_lt_le_dec from (length s)) as [Hlt|Hge].
    + apply find_unit_loop_absent; try lia.
      intros k Hk. apply Habs. lia.
    + replace (Z.to_nat (length s - from)) with 0%nat by lia. reflexivity.
Qed.

Lemma find_unit_first_occurrence_witness :
  find_unit (mk_ustring [0x61; 0x62; 0x61; 0]) 0x61 1 = Ret 2
  /\ find_unit (mk_ustring [0x61; 0x62; 0x61; 0]) 0x7A 1 = Ret npos.
Proof.
  assert (Hinv : sentinel_inv (mk_ustring [0x61; 0x62; 0x61; 0]))
    by inv_by_computation.
  destruct (find_unit_first_occurrence (mk_ustring [0x61; 0x62; 0x61; 0])
              0x61 1 Hinv ltac:(lia)) as [Hfound _].
  destruct (find_unit_first_occurrence (mk_ustring [0x61; 0x62; 0x61; 0])
              0x7A 1 Hinv ltac:(lia)) as [_ Habsent].
  split.
  - apply Hfound.
    + vm_compute. split; [discriminate | reflexivity].
    + reflexivity.
    + intros k' Hk'. assert (k' = 1) as -> by lia. discriminate.
  - apply Habsent. intros k Hk.
    assert (Hlen : length (mk_ustring [0x61; 0x62; 0x61; 0]) = 3) by reflexivity.
    rewrite Hlen in Hk.
    assert (k = 1 \/ k = 2) as [-> | ->] by lia; discriminate.
Defined.

(** ** SearchOps: find of a pattern *)

Lemma empty_storage (e : ustring) :
  sentinel_inv e -> representable e -> empty e = true -> _str e = [0].
Proof.
  intros Hinv Hr He. unfold empty in He. apply Z.eqb_eq in He.
  rewrite (length_units e Hinv Hr) in He. apply size_nil_iff in He.
  rewrite (sentinel_inv_units e Hinv), He. reflexivity.
Qed.

Lemma find_loop_empty_pattern (s e : ustring) :
  _str e = [0] ->
  forall (r : nat) (j : Z),
    0 <= j -> j + Z.of_nat r <= size (_str s) ->
    (forall k, j <= k < j + Z.of_nat r -> index s k <> Ret 0) ->
    find_loop s e 0 j 0 r = Ret npos.
Proof.
  intros He. induction r as [|r IH]; intros j Hj Hb Hnz; [reflexivity|].
  cbn [find_loop]. unfold index at 1. rewrite He.
  rewrite (vec_get_nth _ j 0) by lia. cbn [bind vec_get Z.to_nat nth_error].
  destruct (Z.eqb_spec (nth (Z.to_nat j) (_str s) 0) 0) as [E|E].
  - exfalso. apply (Hnz j); [lia|].
    unfold index. rewrite (vec_get_nth _ j 0) by lia. now rewrite E.
  - apply IH; try lia. intros k Hk. apply Hnz. lia.
Qed.

(** C1 (as the code behaves): on a non-empty haystack without a zero unit in
    its content, [find] with an empty pattern returns [npos] for every
    [from <= length()]; it does not return [from]. *)
Theorem find_empty_pattern_returns_npos (s e : ustring) (from : Z) :
  sentinel_inv s -> representable s -> 0 < length s ->
  sentinel_inv e -> representable e -> empty e = true ->
  0 <= from <= length s ->
  (forall k, from <= k < length s -> index s k <> Ret 0) ->
  find s e from = Ret npos /\ find s e from <> Ret from.
Proof.
  intros Hinv Hr Hne Hie Hre He Hfrom Hnz.
  pose proof (length_le_units s Hinv) as Hl.
  pose proof (sentinel_inv_size s Hinv) as Hs.
  assert (Hfind : find s e from = Ret npos).
  { unfold find. unfold empty in He. apply Z.eqb_eq in He as Hlen. rewrite Hlen.
    apply find_loop_empty_pattern.
    - now apply empty_storage.
    - lia.
    - lia.
    - intros k Hk. apply Hnz. lia. }
  split; [exact Hfind|].
  rewrite Hfind. intros Heq. injection Heq as Heq.
  unfold representable in Hr. rewrite max_size_value in Hr.
  rewrite npos_value, SIZE_MAX_value in Heq. lia.
Qed.

Lemma find_empty_pattern_returns_npos_witness :
  find (mk_ustring [0x61; 0]) ustring_new 0 = Ret npos
  /\ find (mk_ustring [0x61; 0]) ustring_new 0 <> Ret 0.
Proof.
  apply find_empty_pattern_returns_npos.
  - inv_by_computation.
  - vm_compute. discriminate.
  - reflexivity.
  - inv_by_computation.
  - vm_compute. discriminate.
  - reflexivity.
  - vm_compute. split; discriminate.
  - intros k Hk.
    assert (Hlen : length (mk_ustring [0x61; 0]) = 1) by reflexivity.
    rewrite Hlen in Hk. assert (k = 0) as -> by lia. discriminate.
Defined.

(** With a zero unit in the haystack the empty pattern makes the scan
    read [s[1]], past the pattern's storage. *)
Lemma find_empty_pattern_reads_past_pattern :
  find (mk_ustring [0x61; 0; 0x62; 0]) ustring_new 0 = Undefined.
Proof. reflexivity. Qed.

(** C2 (as the code behaves): with haystack [A,A,B] and pattern [A,B], [A]
    and [B] distinct, the scan drops the second [A] when it resets the
    counter, and [find] returns [npos], not 1. *)
Theorem find_repeated_prefix_returns_npos (A B : Z) :
  A <> B ->
  find (mk_ustring [A; A; B; 0]) (mk_ustring [A; B; 0]) 0 = Ret npos.
Proof.
  intros Hne.
  assert (HAB : (A =? B) = false) by now apply Z.eqb_neq.
  assert (HBA : (B =? A) = false) by (apply Z.eqb_neq; congruence).
  cbv -[Z.eqb npos].
  rewrite Z.eqb_refl, HAB, HBA. reflexivity.
Qed.

Lemma find_repeated_prefix_returns_npos_witness :
  find (mk_ustring [0x61; 0x61; 0x62; 0]) (mk_ustring [0x61; 0x62; 0]) 0 = Ret npos.
Proof.
  apply (find_repeated_prefix_returns_npos 0x61 0x62). discriminate.
Defined.

(** ** CodeUnitBuffer: list facts behind insert and range *)

Lemma firstn_exact_app {A : Type} (us l : list A) :
  firstn (List.length us) (us ++ l) = us.
Proof. induction us as [|u us IH]; cbn; [now destruct l | now rewrite IH]. Qed.

Lemma skipn_exact_app {A : Type} (us l : list A) :
  skipn (List.length us) (us ++ l) = l.
Proof. induction us as [|u us IH]; cbn; [reflexivity | exact IH]. Qed.

Lemma slice_app_l {A : Type} (l m : list A) (p k : nat) :
  (p + k <= List.length l)%nat ->
  firstn k (skipn p (l ++ m)) = firstn k (skipn p l).
Proof.
  intros H. rewrite skipn_app, firstn_app, length_skipn.
  replace (k - (List.length l - p))%nat with 0%nat by lia.
  cbn [firstn]. now rewrite app_nil_r.
Qed.

Lemma vec_insert_before_last {A : Type} (us xs : list A) (z : A) :
  vec_insert (us ++ [z]) (size (us ++ [z]) - 1) xs = Ret (us ++ xs ++ [z]).
Proof.
  unfold vec_insert. rewrite size_app, size_cons.
  change (size (@nil A)) with 0. pose proof (size_nonneg us).
  replace (size us + (1 + 0) - 1) with (size us) by lia.
  replace ((0 <=? size us) && (size us <=? size us + (1 + 0))) with true
    by (symmetry; apply andb_true_iff; split; apply Z.leb_le; lia).
  unfold size. rewrite Nat2Z.id, firstn_exact_app, skipn_exact_app. reflexivity.
Qed.

Lemma vec_range_all_but_last {A : Type} (us : list A) (z : A) :
  vec_range (us ++ [z]) 0 (size (us ++ [z]) - 1) = Ret us.
Proof.
  unfold vec_range. rewrite size_app, size_cons.
  change (size (@nil A)) with 0. pose proof (size_nonneg us).
  replace (size us + (1 + 0) - 1) with (size us) by lia.
  replace ((0 <=? 0) && (0 <=? size us) && (size us <=? size us + (1 + 0)))
    with true
    by (symmetry; rewrite !andb_true_iff; repeat split; apply Z.leb_le; lia).
  replace (Z.to_nat (size us - 0)) with (List.length us) by (unfold size; lia).
  cbn [Z.to_nat skipn]. now rewrite firstn_exact_app.
Qed.

Lemma sentinel_inv_snoc (us : list Z) : sentinel_inv (mk_ustring (us ++ [0])).
Proof. apply sentinel_inv_iff. now exists us. Qed.

Lemma units_snoc (us : list Z) : units (mk_ustring (us ++ [0])) = us.
Proof. unfold units. cbn [_str]. apply removelast_last. Qed.

(** ** CodeUnitBuffer: append and concatenation *)

Lemma append_unit_spec (s : ustring) (c : Z) :
  sentinel_inv s ->
  append_unit s c = Ret (mk_ustring (units s ++ [c] ++ [0])).
Proof.
  intros H. unfold append_unit. rewrite (sentinel_inv_units s H).
  rewrite vec_insert_before_last. reflexivity.
Qed.

Lemma append_nonempty_spec (a b : ustring) :
  sentinel_inv a -> sentinel_inv b -> empty b = false ->
  append a b = Ret (mk_ustring (units a ++ units b ++ [0])).
Proof.
  intros Ha Hb He. unfold append. rewrite He.
  rewrite (sentinel_inv_units b Hb) at 1 2. rewrite vec_range_all_but_last.
  cbn [bind]. rewrite (sentinel_inv_units a Ha) at 1 2.
  rewrite vec_insert_before_last. reflexivity.
Qed.

Lemma append_preserves_inv (a b : ustring) :
  sentinel_inv a -> sentinel_inv b ->
  exists r, append a b = Ret r /\ sentinel_inv r.
Proof.
  intros Ha Hb. destruct (empty b) eqn:He.
  - exists a. unfold append. rewrite He. now split.
  - eexists. split; [now apply append_nonempty_spec|].
    rewrite app_assoc. apply sentinel_inv_snoc.
Qed.

Lemma append_spec (a b : ustring) :
  sentinel_inv a -> sentinel_inv b -> representable b ->
  exists r, append a b = Ret r /\ _str r = units a ++ units b ++ [0].
Proof.
  intros Ha Hb Hr. destruct (empty b) eqn:He.
  - exists a. unfold append. rewrite He. split; [reflexivity|].
    pose proof (empty_storage b Hb Hr He) as Hs.
    unfold units at 2. rewrite Hs. cbn [removelast app].
    now apply sentinel_inv_units.
  - eexists. split; [now apply append_nonempty_spec|]. reflexivity.
Qed.

(** C7: [a + b] has logical length [length(a) + length(b)] and the content of
    [a] followed by the content of [b]; appending an empty buffer to [a], with
    [+=] or with [+], gives a buffer equal to [a]. *)
Theorem concat_content_and_length (a b : ustring) :
  sentinel_inv a -> sentinel_inv b ->
  size (_str a) + size (_str b) - 1 <= max_size ->
  exists r,
    concat a b = Ret r
    /\ units r = units a ++ units b
    /\ length r = length a + length b
    /\ (empty b = true ->
        append a b = Ret a /\ r = a /\ ustring_eqb a r = true).
Proof.
  intros Ha Hb Hfit.
  pose proof (sentinel_inv_size a Ha) as Hsa.
  pose proof (sentinel_inv_size b Hb) as Hsb.
  pose proof (size_nonneg (units a)). pose proof (size_nonneg (units b)).
  assert (Hra : representable a) by (unfold representable; lia).
  assert (Hrb : representable b) by (unfold representable; lia).
  destruct (append_spec a b Ha Hb Hrb) as (r & Hr & Hstr).
  exists r. split; [exact Hr|].
  assert (Hir : sentinel_inv r).
  { apply sentinel_inv_iff. exists (units a ++ units b).
    now rewrite Hstr, app_assoc. }
  assert (Hur : units r = units a ++ units b).
  { unfold units at 1. rewrite Hstr, app_assoc. apply removelast_last. }
  split; [exact Hur|]. split.
  - assert (Hrr : representable r).
    { unfold representable. rewrite (sentinel_inv_size r Hir), Hur, size_app. lia. }
    rewrite (length_units r Hir Hrr), (length_units a Ha Hra),
      (length_units b Hb Hrb), Hur.
    apply size_app.
  - intros He. unfold append in Hr |- *. rewrite He in Hr |- *.
    injection Hr as <-. repeat split.
    unfold ustring_eqb. now destruct (list_eq_dec Z.eq_dec (_str a) (_str a)).
Qed.

Lemma concat_content_and_length_witness :
  exists r,
    concat (mk_ustring [0x61; 0]) ustring_new = Ret r
    /\ units r = units (mk_ustring [0x61; 0]) ++ units ustring_new
    /\ length r = length (mk_ustring [0x61; 0]) + length ustring_new
    /\ (empty ustring_new = true ->
        append (mk_ustring [0x61; 0]) ustring_new = Ret (mk_ustring [0x61; 0])
        /\ r = mk_ustring [0x61; 0]
        /\ ustring_eqb (mk_ustring [0x61; 0]) r = true).
Proof.
  apply (concat_content_and_length (mk_ustring [0x61; 0]) ustring_new).
  - inv_by_computation.
  - inv_by_computation.
  - vm_compute. discriminate.
Defined.

(** ** CodeUnitBuffer: construction from a zero-terminated array *)

Lemma count_units_spec (body rest : list Z) :
  Forall nonzero body ->
  forall i, 0 <= i -> i + size body <= SIZE_MAX ->
  count_units (body ++ 0 :: rest) i = Ret (i + size body).
Proof.
  induction 1 as [|u body Hu _ IH]; intros i Hi Hb.
  - cbn. f_equal. change (size (@nil Z)) with 0. lia.
  - rewrite size_cons in Hb. pose proof (size_nonneg body).
    cbn [app count_units].
    destruct (Z.eqb_spec u 0) as [E|_]; [contradiction|].
    rewrite to_size_t_small by lia. rewrite IH by lia.
    f_equal. rewrite size_cons. lia.
Qed.

Lemma copy_units_spec (body rest : list Z) :
  Forall nonzero body ->
  forall acc, copy_units (body ++ 0 :: rest) acc = Ret (acc ++ body).
Proof.
  induction 1 as [|u body Hu _ IH]; intros acc.
  - cbn. now rewrite app_nil_r.
  - cbn [app copy_units].
    destruct (Z.eqb_spec u 0) as [E|_]; [contradiction|].
    rewrite IH, <- app_assoc. reflexivity.
Qed.

Lemma ustring_of_ptr_spec (body rest : list Z) :
  Forall nonzero body -> size body <= max_size ->
  ustring_of_ptr (Some (body ++ 0 :: rest)) = Ret (mk_ustring (body ++ [0])).
Proof.
  intros Hnz Hsz. unfold ustring_of_ptr.
  rewrite max_size_value in Hsz.
  rewrite (count_units_spec body rest Hnz 0) by (rewrite ?SIZE_MAX_value; lia).
  cbn [bind]. unfold vec_reserve.
  replace (0 + size body >? max_size) with false
    by (symmetry; rewrite max_size_value; apply gtb_false; lia).
  cbn [bind]. rewrite (copy_units_spec body rest Hnz []). reflexivity.
Qed.

Lemma ustring_of_ptr_inv (m : option (list Z)) (r : ustring) :
  ustring_of_ptr m = Ret r -> sentinel_inv r.
Proof.
  destruct m as [mem|]; cbn [ustring_of_ptr].
  - destruct (count_units mem 0); cbn [bind]; try discriminate.
    destruct (vec_reserve a); cbn [bind]; try discriminate.
    destruct (copy_units mem []); cbn [bind]; try discriminate.
    intros [= <-]. apply sentinel_inv_snoc.
  - intros [= <-]. split; [discriminate | reflexivity].
Qed.

(** ** CodeUnitBuffer: substr *)

Lemma substr_inv (s : ustring) (pos n : Z) (r : ustring) :
  substr s pos n = Ret r -> sentinel_inv r.
Proof.
  unfold substr. destruct (pos >=? length s); [discriminate|].
  destruct (vec_reserve _); cbn [bind]; try discriminate.
  destruct (vec_range _ _ _); cbn [bind]; try discriminate.
  intros [= <-]. apply sentinel_inv_snoc.
Qed.

(** [substr] where [pos + n] does not wrap around: the result holds
    [min(n, length() - pos)] units, those of the source from [pos] on. *)
Lemma substr_in_range (s : ustring) (pos n : Z) :
  sentinel_inv s -> representable s ->
  0 <= pos < length s -> 0 <= n <= SIZE_MAX ->
  n = SIZE_MAX \/ pos + n <= SIZE_MAX ->
  substr s pos n =
    Ret (mk_ustring
           (firstn (Z.to_nat (Z.min n (length s - pos)))
                   (skipn (Z.to_nat pos) (units s)) ++ [0])).
Proof.
  intros Hinv Hr Hpos Hn Hwrap.
  pose proof (length_units s Hinv Hr) as Hlen.
  pose proof (sentinel_inv_size s Hinv) as Hsz.
  unfold representable in Hr. rewrite max_size_value in Hr.
  rewrite SIZE_MAX_value in Hn, Hwrap.
  unfold substr.
  replace (pos >=? length s) with false
    by (symmetry; apply geb_false; lia).
  set (n' := if (n =? SIZE_MAX) || (to_size_t (pos + n) >? length s)
             then to_size_t (length s - pos) else n).
  assert (Hn' : n' = Z.min n (length s - pos)).
  { unfold n'. rewrite (to_size_t_small (length s - pos))
      by (rewrite SIZE_MAX_value; lia).
    destruct (Z.eqb_spec n SIZE_MAX) as [E|E]; cbn [orb].
    - rewrite SIZE_MAX_value in E. lia.
    - rewrite SIZE_MAX_value in E.
      rewrite to_size_t_small by (rewrite SIZE_MAX_value; lia).
      destruct (Z.gtb_spec (pos + n) (length s)); lia. }
  rewrite Hn'. set (k := Z.min n (length s - pos)).
  assert (Hk : 0 <= k <= length s - pos) by (unfold k; lia).
  rewrite to_size_t_small by (rewrite SIZE_MAX_value; lia).
  unfold vec_reserve.
  replace (k + 1 >? max_size) with false
    by (symmetry; rewrite max_size_value; apply gtb_false; lia).
  cbn [bind]. unfold vec_range.
  replace ((0 <=? pos) && (pos <=? pos + k) && (pos + k <=? size (_str s)))
    with true
    by (symmetry; rewrite !andb_true_iff; repeat split; apply Z.leb_le; lia).
  cbn [bind]. do 3 f_equal.
  replace (pos + k - pos) with k by lia.
  rewrite (sentinel_inv_units s Hinv) at 1.
  apply slice_app_l. unfold size in Hlen. lia.
Qed.

(** X3: where [pos < length()] and [pos + n] does not wrap around, [substr]
    returns a buffer of [min(n, length() - pos)] units whose unit at [i] is
    the source's unit at [pos + i]; [n = SIZE_MAX] asks for the rest. *)
Lemma substr_in_range_units (s : ustring) (pos n : Z) :
  sentinel_inv s -> representable s ->
  0 <= pos < length s -> 0 <= n <= SIZE_MAX ->
  n = SIZE_MAX \/ pos + n <= SIZE_MAX ->
  exists r,
    substr s pos n = Ret r
    /\ length r = Z.min n (length s - pos)
    /\ forall i, 0 <= i < length r -> index r i = index s (pos + i).
Proof.
  intros Hinv Hr Hpos Hn Hwrap.
  pose proof (length_units s Hinv Hr) as Hlen.
  pose proof (sentinel_inv_size s Hinv) as Hsz.
  set (k := Z.min n (length s - pos)).
  set (us := firstn (Z.to_nat k) (skipn (Z.to_nat pos) (units s))).
  assert (Hk : 0 <= k <= length s - pos) by (unfold k; lia).
  assert (Hus : size us = k).
  { unfold us, size in *. rewrite length_firstn, length_skipn. lia. }
  assert (Hir : sentinel_inv (mk_ustring (us ++ [0])))
    by apply sentinel_inv_snoc.
  assert (Hrr : representable (mk_ustring (us ++ [0]))).
  { unfold representable in *. cbn [_str]. rewrite size_app.
    change (size [0]) with 1. lia. }
  assert (Hlr : length (mk_ustring (us ++ [0])) = k).
  { rewrite (length_units _ Hir Hrr), units_snoc. exact Hus. }
  exists (mk_ustring (us ++ [0])). split; [now apply substr_in_range|].
  split; [exact Hlr|]. intros i Hi. rewrite Hlr in Hi.
  rewrite (index_units s) by (try assumption; lia).
  rewrite (index_units (mk_ustring (us ++ [0]))), units_snoc
    by (try assumption; rewrite ?units_snoc; lia).
  unfold vec_get, us. rewrite nth_error_firstn, nth_error_skipn.
  replace (Z.to_nat i <? Z.to_nat k)%nat with true
    by (symmetry; apply Nat.ltb_lt; lia).
  replace (Z.to_nat pos + Z.to_nat i)%nat with (Z.to_nat (pos + i)) by lia.
  reflexivity.
Qed.

(** [substr] throws [std::out_of_range] exactly when [pos >= length()]. *)
Lemma substr_out_of_range_iff (s : ustring) (pos n : Z) :
  substr s pos n = Throw out_of_range <-> pos >= length s.
Proof.
  unfold substr. destruct (Z.geb_spec pos (length s)) as [H|H].
  - split; [lia | reflexivity].
  - split; [|lia]. unfold vec_reserve.
    destruct (_ >? max_size); cbn [bind]; [intros E; discriminate E|].
    unfold vec_range.
    destruct (_ && _); cbn [bind]; intros E; discriminate E.
Qed.

Lemma to_size_t_wrapped (z : Z) :
  SIZE_MAX < z <= 2 * SIZE_MAX -> to_size_t z = z - SIZE_MAX - 1.
Proof.
  intros H. rewrite SIZE_MAX_value in *. unfold to_size_t.
  rewrite size_t_modulus. symmetry.
  apply (Z.mod_unique z 18446744073709551616 1); lia.
Qed.

(** C5 (as the code behaves): when [pos < length()] and [pos + n] wraps
    around in [size_t], the count is not clamped and [substr] throws
    [std::length_error] from [reserve(n + 1)] instead of returning the
    [length() - pos] remaining units. *)
Theorem substr_wrapped_count_throws (s : ustring) (pos n : Z) :
  sentinel_inv s -> representable s ->
  0 <= pos < length s -> 0 <= n < SIZE_MAX -> SIZE_MAX < pos + n ->
  substr s pos n = Throw length_error.
Proof.
  intros Hinv Hr Hpos Hn Hwrap.
  pose proof (length_units s Hinv Hr) as Hlen.
  pose proof (sentinel_inv_size s Hinv) as Hsz.
  unfold representable in Hr. rewrite max_size_value in Hr.
  unfold substr.
  replace (pos >=? length s) with false
    by (symmetry; apply geb_false; lia).
  rewrite (to_size_t_wrapped (pos + n)) by (rewrite SIZE_MAX_value in *; lia).
  rewrite SIZE_MAX_value in *.
  replace (n =? 18446744073709551615) with false
    by (symmetry; apply Z.eqb_neq; lia).
  replace (pos + n - 18446744073709551615 - 1 >? length s) with false
    by (symmetry; apply gtb_false; lia).
  cbn [orb]. rewrite to_size_t_small by (rewrite SIZE_MAX_value; lia).
  unfold vec_reserve.
  replace (n + 1 >? max_size) with true
    by (symmetry; rewrite max_size_value; apply gtb_true; lia).
  reflexivity.
Qed.

Lemma substr_wrapped_count_throws_witness :
  substr (mk_ustring [0x61; 0x62; 0x63; 0]) 2 18446744073709551614
  = Throw length_error.
Proof.
  apply substr_wrapped_count_throws.
  - inv_by_computation.
  - vm_compute. discriminate.
  - vm_compute. split; [discriminate | reflexivity].
  - vm_compute. split; [discriminate | reflexivity].
  - vm_compute. reflexivity.
Defined.

(** ** EncodingBridge: ustring to std::string *)

Lemma byte_of_Z_to_N (z : Z) :
  0 <= z < 256 -> Byte.to_N (byte_of_Z z) = Z.to_N z.
Proof.
  intros H. unfold byte_of_Z. rewrite Z.mod_small by lia.
  destruct (Byte.of_N (Z.to_N z)) as [b|] eqn:E.
  - now apply Byte.to_of_N.
  - apply Byte.of_N_None_iff in E. lia.
Qed.

Lemma narrow_unit_zero (u : Z) :
  is_uint16 u -> (narrow_unit u = "000"%byte <-> u = 0).
Proof.
  intros Hu. unfold is_uint16 in Hu. unfold narrow_unit.
  destruct (Z.gtb_spec u 255) as [Hgt|Hle].
  - split; [discriminate | lia].
  - split.
    + intros E. assert (Hn : Byte.to_N (byte_of_Z u) = 0%N) by now rewrite E.
      rewrite byte_of_Z_to_N in Hn by lia. lia.
    + intros ->. reflexivity.
Qed.

Lemma list_update_middle {A : Type} (pre post : list A) (x y : A) :
  list_update (pre ++ x :: post) (List.length pre) y = pre ++ y :: post.
Proof. induction pre as [|a pre IH]; cbn; [reflexivity | now rewrite IH]. Qed.

Lemma vec_set_middle {A : Type} (pre post : list A) (x y : A) :
  vec_set (pre ++ x :: post) (size pre) y = Ret (pre ++ y :: post).
Proof.
  unfold vec_set. rewrite size_app, size_cons.
  pose proof (size_nonneg pre). pose proof (size_nonneg post).
  replace ((0 <=? size pre) && (size pre <? size pre + (1 + size post)))
    with true
    by (symmetry; apply andb_true_iff; split;
        [apply Z.leb_le | apply Z.ltb_lt]; lia).
  unfold size. now rewrite Nat2Z.id, list_update_middle.
Qed.

Lemma size_map {A B : Type} (f : A -> B) (l : list A) : size (map f l) = size l.
Proof. unfold size. now rewrite length_map. Qed.

(** The loop writes the narrowed units over the zero-filled buffer. *)
Lemma narrow_loop_spec (s : ustring) (pad : list byte) :
  sentinel_inv s ->
  forall todo done,
    units s = done ++ todo ->
    narrow_loop s
      (map narrow_unit done ++ repeat "000"%byte (List.length todo) ++ pad)
      (size done) (List.length todo)
    = Ret (map narrow_unit (done ++ todo) ++ pad).
Proof.
  intros Hinv. induction todo as [|u todo IH]; intros done Hus.
  - cbn. now rewrite app_nil_r.
  - cbn [List.length narrow_loop repeat app].
    assert (Hget : index s (size done) = Ret u).
    { unfold index. rewrite (sentinel_inv_units s Hinv), Hus, <- app_assoc.
      rewrite vec_get_app_r by lia. now rewrite Z.sub_diag. }
    rewrite Hget. cbn [bind].
    assert (Hset : (if u >? 0xff
                    then vec_set (map narrow_unit done ++ "000"%byte
                                    :: repeat "000"%byte (List.length todo) ++ pad)
                                 (size done) "?"%byte
                    else vec_set (map narrow_unit done ++ "000"%byte
                                    :: repeat "000"%byte (List.length todo) ++ pad)
                                 (size done) (byte_of_Z u))
                   = Ret (map narrow_unit (done ++ [u])
                            ++ repeat "000"%byte (List.length todo) ++ pad)).
    { rewrite <- (size_map narrow_unit done), !vec_set_middle.
      rewrite map_app, <- app_assoc. cbn [map app].
      change (narrow_unit u)
        with (if u >? 0xff then "?"%byte else byte_of_Z u).
      now destruct (u >? 0xff). }
    rewrite Hset. cbn [bind].
    replace (size done + 1) with (size (done ++ [u]))
      by (rewrite size_app; reflexivity).
    rewrite IH by (now rewrite <- app_assoc).
    now rewrite <- app_assoc.
Qed.

Lemma string_of_c_str_spec (us : list Z) (rest : list byte) :
  Forall is_uint16 us ->
  string_of_c_str (map narrow_unit us ++ "000"%byte :: rest)
  = Ret (map narrow_unit (before_zero us)).
Proof.
  induction 1 as [|u us Hu _ IH]; [reflexivity|].
  cbn [map app string_of_c_str before_zero].
  destruct (Z.eqb_spec u 0) as [E|E].
  - rewrite (proj2 (narrow_unit_zero u Hu) E). reflexivity.
  - destruct (Byte.eqb (narrow_unit u) "000"%byte) eqn:Eb.
    + apply Byte.byte_dec_bl in Eb. now apply narrow_unit_zero in Eb.
    + rewrite IH. reflexivity.
Qed.

(** What [MakeStandardString] returns for every buffer: the narrowed units
    that precede the first zero unit. *)
Lemma MakeStandardString_spec (s : ustring) :
  sentinel_inv s -> representable s -> Forall is_uint16 (units s) ->
  MakeStandardString s = Ret (map narrow_unit (before_zero (units s))).
Proof.
  intros Hinv Hr Hu. unfold MakeStandardString.
  rewrite (length_units s Hinv Hr).
  pose proof (sentinel_inv_size s Hinv) as Hsz.
  unfold representable in Hr. rewrite max_size_value in Hr.
  pose proof (size_nonneg (units s)) as Hnn.
  rewrite to_size_t_small by (rewrite SIZE_MAX_value; lia).
  replace (Z.to_nat (size (units s) + 1)) with (List.length (units s) + 1)%nat
    by (unfold size; lia).
  replace (Z.to_nat (size (units s))) with (List.length (units s))
    by (unfold size; lia).
  rewrite repeat_app.
  pose proof (narrow_loop_spec s (repeat "000"%byte 1) Hinv (units s) [] eq_refl)
    as Hloop.
  cbn [map app] in Hloop. change (size (@nil Z)) with 0 in Hloop.
  rewrite Hloop. cbn [bind app repeat]. now apply string_of_c_str_spec.
Qed.

Lemma before_zero_nonzero (us : list Z) :
  Forall nonzero us -> before_zero us = us.
Proof.
  induction 1 as [|u us Hu _ IH]; [reflexivity|].
  cbn [before_zero]. destruct (Z.eqb_spec u 0); [contradiction | now rewrite IH].
Qed.

Lemma before_zero_first (us : list Z) :
  forall k : nat,
    nth_error us k = Some 0 ->
    (forall i, (i < k)%nat -> nth_error us i <> Some 0) ->
    before_zero us = firstn k us.
Proof.
  induction us as [|u us IH]; intros k Hk Hbefore.
  - now destruct k.
  - cbn [before_zero]. destruct k as [|k].
    + cbn in Hk. injection Hk as ->. reflexivity.
    + destruct (Z.eqb_spec u 0) as [E|E].
      * exfalso. apply (Hbefore 0%nat); [lia | now rewrite E].
      * cbn [firstn]. f_equal. apply IH; [exact Hk|].
        intros i Hi. apply (Hbefore (S i)). lia.
Qed.

(** C6, the claim as stated fails: a buffer with an interior zero unit
    (built with [+=]) does not yield one byte per unit; the output stops at
    the zero unit and the unit 0x4E2D behind it yields no ['?']. *)
Lemma encode_every_unit_counterexample :
  (x <- append_unit ustring_new 0x41 ;; y <- append_unit x 0 ;;
   append_unit y 0x4E2D) = Ret (mk_ustring [0x41; 0; 0x4E2D; 0])
  /\ sentinel_inv (mk_ustring [0x41; 0; 0x4E2D; 0])
  /\ MakeStandardString (mk_ustring [0x41; 0; 0x4E2D; 0]) = Ret ["A"%byte]
  /\ MakeStandardString (mk_ustring [0x41; 0; 0x4E2D; 0])
     <> Ret (map narrow_unit (units (mk_ustring [0x41; 0; 0x4E2D; 0]))).
Proof.
  split; [reflexivity|]. split; [split; [discriminate | reflexivity]|].
  split; [reflexivity|]. vm_compute. discriminate.
Qed.

(** C6 (amended): [MakeStandardString] returns for every buffer; its result
    is the bytes of the units that precede the first zero unit, ['?'] for a
    unit above 0xFF and the unit narrowed to one byte otherwise, in order.
    For a buffer without a zero unit in its content that is one byte per
    unit, and a unit 0x4E2D yields ['?'] at its position. *)
Theorem encode_narrows_up_to_first_zero (s : ustring) :
  sentinel_inv s -> representable s -> Forall is_uint16 (units s) ->
  MakeStandardString s = Ret (map narrow_unit (before_zero (units s)))
  /\ (Forall nonzero (units s) ->
      MakeStandardString s = Ret (map narrow_unit (units s))
      /\ forall k, nth_error (units s) k = Some 0x4E2D ->
                   nth_error (map narrow_unit (units s)) k = Some "?"%byte).
Proof.
  intros Hinv Hr Hu.
  pose proof (MakeStandardString_spec s Hinv Hr Hu) as Hspec.
  split; [exact Hspec|]. intros Hnz. split.
  - now rewrite Hspec, before_zero_nonzero.
  - intros k Hk. now rewrite (map_nth_error narrow_unit k (units s) Hk).
Qed.

Lemma encode_narrows_up_to_first_zero_witness :
  MakeStandardString (mk_ustring [0x41; 0x4E2D; 0xE9; 0])
  = Ret (map narrow_unit (before_zero [0x41; 0x4E2D; 0xE9]))
  /\ (Forall nonzero [0x41; 0x4E2D; 0xE9] ->
      MakeStandardString (mk_ustring [0x41; 0x4E2D; 0xE9; 0])
      = Ret (map narrow_unit [0x41; 0x4E2D; 0xE9])
      /\ forall k, nth_error [0x41; 0x4E2D; 0xE9] k = Some 0x4E2D ->
                   nth_error (map narrow_unit [0x41; 0x4E2D; 0xE9]) k
                   = Some "?"%byte).
Proof.
  apply (encode_narrows_up_to_first_zero (mk_ustring [0x41; 0x4E2D; 0xE9; 0])).
  - inv_by_computation.
  - vm_compute. discriminate.
  - repeat constructor; discriminate.
Defined.

(** C10: when the content of a buffer has a zero unit, its first one at
    index [k], [MakeStandardString] returns only the [k] bytes of the units
    before it, fewer than the buffer's logical length. *)
Theorem encode_truncates_at_interior_zero (s : ustring) (k : Z) :
  sentinel_inv s -> representable s -> Forall is_uint16 (units s) ->
  0 <= k < length s -> index s k = Ret 0 ->
  (forall i, 0 <= i < k -> index s i <> Ret 0) ->
  exists out,
    MakeStandardString s = Ret out
    /\ out = map narrow_unit (firstn (Z.to_nat k) (units s))
    /\ size out = k
    /\ size out < length s.
Proof.
  intros Hinv Hr Hu Hk Hzero Hbefore.
  pose proof (length_units s Hinv Hr) as Hlen.
  assert (Hout : size (map narrow_unit (firstn (Z.to_nat k) (units s))) = k).
  { rewrite size_map. unfold size in *. rewrite length_firstn. lia. }
  exists (map narrow_unit (firstn (Z.to_nat k) (units s))).
  split; [|split; [reflexivity|split; [exact Hout | lia]]].
  rewrite (MakeStandardString_spec s Hinv Hr Hu).
  apply f_equal, f_equal, before_zero_first.
  - apply vec_get_nth_error. rewrite <- index_units by (try assumption; lia).
    exact Hzero.
  - intros i Hi Hnth. apply (Hbefore (Z.of_nat i)); [lia|].
    rewrite index_units by (try assumption; lia).
    apply vec_get_nth_error. now rewrite Nat2Z.id.
Qed.

Lemma encode_truncates_at_interior_zero_witness :
  (x <- append_unit ustring_new 0x41 ;; y <- append_unit x 0 ;;
   append_unit y 0x42) = Ret (mk_ustring [0x41; 0; 0x42; 0])
  /\ exists out,
       MakeStandardString (mk_ustring [0x41; 0; 0x42; 0]) = Ret out
       /\ out = map narrow_unit
                  (firstn (Z.to_nat 1) (units (mk_ustring [0x41; 0; 0x42; 0])))
       /\ size out = 1
       /\ size out < length (mk_ustring [0x41; 0; 0x42; 0]).
Proof.
  split; [reflexivity|].
  apply (encode_truncates_at_interior_zero (mk_ustring [0x41; 0; 0x42; 0]) 1).
  - inv_by_computation.
  - vm_compute. discriminate.
  - repeat constructor; discriminate.
  - vm_compute. split; [discriminate | reflexivity].
  - reflexivity.
  - intros i Hi. assert (i = 0) as -> by lia. discriminate.
Defined.

(** ** EncodingBridge: std::string to ustring, the fallback branch *)

Lemma string_get_defined (text : std_string) (c : Z) :
  0 <= c <= size text -> exists b, string_get text c = Ret b.
Proof.
  intros H. unfold string_get. destruct (Z.eqb_spec c (size text)) as [E|E].
  - now exists "000"%byte.
  - exists (nth (Z.to_nat c) text "000"%byte). apply vec_get_nth. lia.
Qed.

(** The fallback loop appends to [ubuff]: what the vector held before the
    loop stays in front. *)
Lemma widen_loop_appends (p : platform) (text : std_string) (cap : Z) :
  forall (r : nat) (c : Z) (ubuff : list Z) (flag : bool),
    0 <= c -> c + Z.of_nat r <= size text + 1 ->
    exists pushed flag',
      widen_loop p text cap (ubuff, flag) c r = Ret (ubuff ++ pushed, flag').
Proof.
  induction r as [|r IH]; intros c ubuff flag Hc Hb.
  - exists [], flag. cbn. now rewrite app_nil_r.
  - cbn [widen_loop].
    destruct (string_get_defined text c ltac:(lia)) as [b Hb'].
    rewrite Hb'. cbn [bind push_back].
    destruct (IH (c + 1) (ubuff ++ [uint16_of_char p b])
                (flag && (size ubuff <? cap)) ltac:(lia) ltac:(lia))
      as (pushed & flag' & Hloop).
    exists (uint16_of_char p b :: pushed), flag'.
    rewrite Hloop, <- app_assoc. reflexivity.
Qed.

Lemma repeat_zero_head (n : Z) :
  0 < n -> repeat 0 (Z.to_nat n) = 0 :: repeat 0 (Z.to_nat (n - 1)).
Proof.
  intros H. replace (Z.to_nat n) with (S (Z.to_nat (n - 1))) by lia. reflexivity.
Qed.

Lemma widened_not_empty (text : std_string) :
  text <> [] -> widened text <> ustring_new.
Proof.
  intros Hne E. destruct text as [|b t]; [contradiction|].
  unfold widened, ustring_new in E. injection E as _ E.
  now destruct (map Z_of_byte t).
Qed.

(** C3 (as the code behaves): when [iconv_open] fails on a non-empty input,
    the fallback pushes the widened bytes behind the [length] zero units
    [ubuff] already holds, while [utf16String] still points at the old
    start: the call has undefined behaviour if a push_back reallocated, and
    returns the empty buffer otherwise; it never returns the widened
    input. *)
Theorem decode_fallback_loses_input (p : platform) (text : std_string) :
  text <> [] -> size text + 1 <= max_size ->
  iconv_open_ok p = false ->
  (MakeUnicodeString p text = Undefined
   \/ MakeUnicodeString p text = Ret ustring_new)
  /\ MakeUnicodeString p text <> Ret (widened text).
Proof.
  intros Hne Hsz Hopen.
  assert (Hcases : MakeUnicodeString p text = Undefined
                   \/ MakeUnicodeString p text = Ret ustring_new).
  { unfold MakeUnicodeString.
    pose proof (size_nonneg text) as Hnn. rewrite max_size_value in Hsz.
    rewrite to_size_t_small by (rewrite SIZE_MAX_value; lia).
    unfold vec_reserve.
    replace (size text + 1 >? max_size) with false
      by (symmetry; rewrite max_size_value; apply gtb_false; lia).
    cbn [bind].
    assert (Hconv : forall dest, UTF8ToUTF16 p text dest = (false, dest)).
    { intros dest. unfold UTF8ToUTF16. rewrite Hopen.
      destruct text; [contradiction | reflexivity]. }
    rewrite Hconv.
    destruct (widen_loop_appends p text (initial_capacity p (size text + 1))
                (Z.to_nat (size text + 1)) 0
                (repeat 0 (Z.to_nat (size text + 1))) true
                ltac:(lia) ltac:(lia))
      as (pushed & flag & Hloop).
    rewrite Hloop. cbn [bind push_back].
    destruct (flag && _); [right | now left].
    rewrite repeat_zero_head by lia. rewrite <- !app_comm_cons.
    exact (ustring_of_ptr_spec [] _ (Forall_nil _) ltac:(vm_compute; discriminate)). }
  split; [exact Hcases|].
  destruct Hcases as [E|E]; rewrite E; [discriminate|].
  intros E'. apply (widened_not_empty text Hne). congruence.
Qed.

Lemma decode_fallback_loses_input_witness :
  ((MakeUnicodeString host_without_iconv ["A"%byte] = Undefined
    \/ MakeUnicodeString host_without_iconv ["A"%byte] = Ret ustring_new)
   /\ MakeUnicodeString host_without_iconv ["A"%byte]
      <> Ret (widened ["A"%byte]))
  /\ MakeUnicodeString host_without_iconv ["A"%byte] = Undefined
  /\ MakeUnicodeString host_without_iconv_roomy ["A"%byte] = Ret ustring_new
  /\ widened ["A"%byte] = mk_ustring [0x41; 0].
Proof.
  split.
  - apply (decode_fallback_loses_input host_without_iconv ["A"%byte]).
    + discriminate.
    + vm_compute. discriminate.
    + reflexivity.
  - repeat split; reflexivity.
Defined.

(** A failure of [iconv] itself takes the same branch: the input "A\xFF"
    gives undefined behaviour where push_back reallocates, and otherwise the
    unit [iconv] had stored before it failed, not the two widened bytes. *)
Lemma decode_failed_conversion_example :
  MakeUnicodeString host_iconv_fails ["A"%byte; xff] = Undefined
  /\ MakeUnicodeString host_iconv_fails_roomy ["A"%byte; xff]
     = Ret (mk_ustring [0x41; 0])
  /\ widened ["A"%byte; xff] = mk_ustring [0x41; 0xFF; 0].
Proof. repeat split; reflexivity. Qed.

(** ** EncodingBridge: std::string to ustring, the byte-order mark *)

Lemma list_update_length {A : Type} (v : list A) (i : nat) (x : A) :
  List.length (list_update v i x) = List.length v.
Proof.
  revert i. induction v as [|a v IH]; intros i; [reflexivity|].
  destruct i; cbn; [reflexivity | now rewrite IH].
Qed.

Lemma vec_set_size {A : Type} (v v' : list A) (i : Z) (x : A) :
  vec_set v i x = Ret v' -> size v' = size v.
Proof.
  unfold vec_set. destruct (_ && _); [|discriminate].
  intros [= <-]. unfold size. now rewrite list_update_length.
Qed.

Lemma vec_set_defined {A : Type} (v : list A) (i : Z) (x : A) :
  0 <= i < size v -> exists v', vec_set v i x = Ret v'.
Proof.
  intros H. unfold vec_set.
  replace ((0 <=? i) && (i <? size v)) with true
    by (symmetry; apply andb_true_iff; split;
        [apply Z.leb_le | apply Z.ltb_lt]; lia).
  now eexists.
Qed.

(** A swap pass that is asked for more units than the array holds behind
    [off] runs off its end. *)
Lemma swap_loop_overrun (off : Z) :
  forall (r : nat) (c : Z) (ubuff : list Z),
    0 <= off + c <= size ubuff -> size ubuff < off + c + Z.of_nat r ->
    swap_loop ubuff off c r = Undefined.
Proof.
  induction r as [|r IH]; intros c ubuff Hc Hr; [lia|].
  cbn [swap_loop].
  destruct (Z.eq_dec (off + c) (size ubuff)) as [E|E].
  - rewrite vec_get_outside by lia. reflexivity.
  - rewrite (vec_get_nth ubuff (off + c) 0) by lia. cbn [bind].
    destruct (Z.land _ 0xFF80 =? 0).
    + cbn [bind]. replace (off + (c + 1)) with (off + c + 1) in IH by lia.
      apply IH; lia.
    + destruct (vec_set_defined ubuff (off + c)
                  (to_uint16 (Z.lor (Z.shiftl (nth (Z.to_nat (off + c)) ubuff 0) 8)
                                    (Z.shiftr (nth (Z.to_nat (off + c)) ubuff 0) 8)))
                  ltac:(lia)) as [v' Hset].
      rewrite Hset. cbn [bind]. pose proof (vec_set_size _ _ _ _ Hset) as Hsz.
      apply IH; lia.
Qed.

Lemma store_units_size (dest written : list Z) (destLen : Z) :
  destLen / 2 <= size dest ->
  size (store_units dest written destLen) = size dest.
Proof.
  intros H. unfold store_units.
  pose proof (firstn_le_length (Z.to_nat (destLen / 2)) written) as Hle.
  assert (Hn : (List.length (firstn (Z.to_nat (destLen / 2)) written)
                <= Z.to_nat (destLen / 2))%nat) by apply firstn_le_length.
  unfold size in *. rewrite length_app, length_skipn. lia.
Qed.

Lemma store_units_prefix (dest pre rest : list Z) (destLen : Z) :
  size pre <= destLen / 2 ->
  exists rest', store_units dest (pre ++ rest) destLen = pre ++ rest'.
Proof.
  intros H. unfold store_units, size in *.
  rewrite firstn_app, (firstn_all2 pre) by lia.
  rewrite <- app_assoc. now eexists.
Qed.

Lemma dest_len_units (text : std_string) :
  size text + 1 <= max_size ->
  to_size_t ((size text + 1) * 2) / 2 = size text + 1.
Proof.
  intros H. pose proof (size_nonneg text). rewrite max_size_value in H.
  rewrite to_size_t_small by (rewrite SIZE_MAX_value; lia).
  apply Z.div_mul. discriminate.
Qed.

Lemma is_bom_test (bom : Z) :
  bom = UTF_16_BOM_STD \/ bom = UTF_16_BOM_REV ->
  (bom =? UTF_16_BOM_STD) || (bom =? UTF_16_BOM_REV) = true.
Proof. intros [-> | ->]; reflexivity. Qed.

(** The byte-swap pass of a big-endian build after a skipped mark:
    [utf16String] points at [ubuff[1]] and the pass still runs over [length]
    units from there, so it reads [ubuff[length]], one unit past the
    vector. *)
Theorem decode_bom_big_endian_overruns (p : platform) (text : std_string)
        (bom : Z) (produced : list Z) :
  text <> [] -> size text + 1 <= max_size ->
  big_endian p = true -> iconv_open_ok p = true ->
  iconv p (text ++ ["000"%byte]) = (true, bom :: produced) ->
  bom = UTF_16_BOM_STD \/ bom = UTF_16_BOM_REV ->
  MakeUnicodeString p text = Undefined.
Proof.
  intros Hne Hsz Hbe Hopen Hconv Hbom.
  pose proof (size_nonneg text) as Hnn.
  assert (Htext : 1 <= size text).
  { destruct text; [contradiction|]. rewrite size_cons. pose proof (size_nonneg text). lia. }
  unfold MakeUnicodeString.
  rewrite (to_size_t_small (size text + 1))
    by (rewrite max_size_value in Hsz; rewrite SIZE_MAX_value; lia).
  unfold vec_reserve. rewrite gtb_false by lia. cbn [bind].
  assert (HU : UTF8ToUTF16 p text (repeat 0 (Z.to_nat (size text + 1)))
               = (true, store_units (repeat 0 (Z.to_nat (size text + 1)))
                          (bom :: produced)
                          (to_size_t ((size text + 1) * 2)))).
  { unfold UTF8ToUTF16. rewrite Hopen, Hconv.
    destruct text; [contradiction | reflexivity]. }
  rewrite HU.
  set (ubuff := store_units _ _ _).
  assert (Hsize : size ubuff = size text + 1).
  { unfold ubuff. rewrite store_units_size.
    - unfold size. rewrite repeat_length. lia.
    - rewrite dest_len_units by assumption.
      unfold size. rewrite repeat_length. lia. }
  assert (Hhead : exists rest', ubuff = bom :: rest').
  { unfold ubuff.
    apply (store_units_prefix _ [bom] produced).
    rewrite dest_len_units by assumption. change (size [bom]) with 1. lia. }
  destruct Hhead as [rest' Hubuff].
  assert (H0 : vec_get ubuff 0 = Ret bom) by (now rewrite Hubuff).
  rewrite H0. cbn [bind]. rewrite (is_bom_test bom Hbom).
  rewrite (vec_get_nth ubuff 1 0) by lia. cbn [bind]. rewrite Hbe.
  rewrite (swap_loop_overrun 1) by lia. reflexivity.
Qed.

Lemma decode_bom_big_endian_overruns_witness :
  MakeUnicodeString host_be_bom [xef; xbb; xbf; x61] = Undefined.
Proof.
  apply (decode_bom_big_endian_overruns host_be_bom [xef; xbb; xbf; x61]
           0xFEFF [0x61; 0]).
  - discriminate.
  - vm_compute. discriminate.
  - reflexivity.
  - reflexivity.
  - reflexivity.
  - left. reflexivity.
Defined.

(** X16: on a little-endian build the mark is skipped: when [iconv]
    succeeds and stores a mark (0xFEFF or 0xFFFE), units [body] without a
    zero and a zero unit, the result holds exactly [body]. *)
Lemma decode_bom_little_endian (p : platform) (text : std_string)
      (bom : Z) (body rest : list Z) :
  text <> [] -> size text + 1 <= max_size ->
  big_endian p = false -> iconv_open_ok p = true ->
  iconv p (text ++ ["000"%byte]) = (true, bom :: body ++ 0 :: rest) ->
  bom = UTF_16_BOM_STD \/ bom = UTF_16_BOM_REV ->
  Forall nonzero body -> size body + 2 <= size text + 1 ->
  MakeUnicodeString p text = Ret (mk_ustring (body ++ [0])).
Proof.
  intros Hne Hsz Hle Hopen Hconv Hbom Hnz Hroom.
  pose proof (size_nonneg text) as Hnn. pose proof (size_nonneg body) as Hnb.
  unfold MakeUnicodeString.
  rewrite (to_size_t_small (size text + 1))
    by (rewrite max_size_value in Hsz; rewrite SIZE_MAX_value; lia).
  unfold vec_reserve. rewrite gtb_false by lia. cbn [bind].
  assert (HU : UTF8ToUTF16 p text (repeat 0 (Z.to_nat (size text + 1)))
               = (true, store_units (repeat 0 (Z.to_nat (size text + 1)))
                          (bom :: body ++ 0 :: rest)
                          (to_size_t ((size text + 1) * 2)))).
  { unfold UTF8ToUTF16. rewrite Hopen, Hconv.
    destruct text; [contradiction | reflexivity]. }
  rewrite HU.
  destruct (store_units_prefix (repeat 0 (Z.to_nat (size text + 1)))
              (bom :: body ++ [0]) rest (to_size_t ((size text + 1) * 2)))
    as [rest' Hubuff].
  { rewrite dest_len_units by assumption.
    rewrite size_cons, size_app. change (size [0]) with 1. lia. }
  replace ((bom :: body ++ [0]) ++ rest) with (bom :: body ++ 0 :: rest)
    in Hubuff by (cbn [app]; now rewrite <- app_assoc).
  rewrite Hubuff. cbn [vec_get Z.to_nat nth_error bind app].
  rewrite (is_bom_test bom Hbom).
  rewrite (vec_get_nth _ 1 0)
    by (rewrite !size_cons, !size_app, size_cons;
        pose proof (size_nonneg rest'); pose proof (size_nonneg (@nil Z)); lia).
  cbn [bind]. rewrite Hle. cbn [bind].
  change (Z.to_nat 1) with 1%nat. cbn [skipn].
  rewrite <- app_assoc. cbn [app].
  apply ustring_of_ptr_spec; [assumption | lia].
Qed.



(** ** CodeUnitBuffer: the invariant is established and preserved *)

Lemma MakeUnicodeString_inv (p : platform) (text : std_string) (r : ustring) :
  MakeUnicodeString p text = Ret r -> sentinel_inv r.
Proof.
  unfold MakeUnicodeString.
  destruct (vec_reserve _); cbn [bind]; try discriminate.
  destruct (UTF8ToUTF16 _ _ _) as [ok ubuff]. destruct ok.
  - destruct (vec_get ubuff 0); cbn [bind]; try discriminate.
    destruct (_ || _).
    + destruct (vec_get ubuff 1); cbn [bind]; try discriminate.
      destruct (big_endian p); [destruct (swap_loop _ _ _ _)|];
        cbn [bind]; try discriminate; apply ustring_of_ptr_inv.
    + cbn [bind].
      destruct (big_endian p); [destruct (swap_loop _ _ _ _)|];
        cbn [bind]; try discriminate; apply ustring_of_ptr_inv.
  - destruct (widen_loop _ _ _ _ _ _) as [[u f]| |]; cbn [bind push_back];
      try discriminate.
    destruct (f && _); [apply ustring_of_ptr_inv | discriminate].
Qed.

(** C4: the storage of every buffer the class builds is non-empty and ends
    with the sentinel 0: the default and the pointer constructor establish
    this, and [substr], [+=] of a unit, [+=] of a buffer and [+] return
    buffers that satisfy it. *)
Theorem operations_preserve_sentinel :
  sentinel_inv ustring_new
  /\ (forall m r, ustring_of_ptr m = Ret r -> sentinel_inv r)
  /\ (forall body rest,
        Forall nonzero body -> size body <= max_size ->
        exists r, ustring_of_ptr (Some (body ++ 0 :: rest)) = Ret r
                  /\ sentinel_inv r)
  /\ (forall s pos n r, substr s pos n = Ret r -> sentinel_inv r)
  /\ (forall s pos n,
        sentinel_inv s -> representable s ->
        0 <= pos < length s -> 0 <= n <= SIZE_MAX ->
        n = SIZE_MAX \/ pos + n <= SIZE_MAX ->
        exists r, substr s pos n = Ret r /\ sentinel_inv r)
  /\ (forall s c,
        sentinel_inv s ->
        exists r, append_unit s c = Ret r /\ sentinel_inv r)
  /\ (forall a b,
        sentinel_inv a -> sentinel_inv b ->
        exists r, append a b = Ret r /\ sentinel_inv r)
  /\ (forall a b,
        sentinel_inv a -> sentinel_inv b ->
        exists r, concat a b = Ret r /\ sentinel_inv r)
  /\ (forall p text r, MakeUnicodeString p text = Ret r -> sentinel_inv r).
Proof.
  split; [split; [discriminate | reflexivity]|].
  split; [exact ustring_of_ptr_inv|].
  split.
  { intros body rest Hnz Hsz. eexists. split.
    - now apply ustring_of_ptr_spec.
    - apply sentinel_inv_snoc. }
  split; [exact substr_inv|].
  split.
  { intros s pos n Hinv Hr Hpos Hn Hwrap. eexists. split.
    - now apply substr_in_range.
    - apply sentinel_inv_snoc. }
  split.
  { intros s c Hinv. eexists. split.
    - now apply append_unit_spec.
    - rewrite app_assoc. apply sentinel_inv_snoc. }
  split; [intros a b Ha Hb; now apply append_preserves_inv|].
  split; [intros a b Ha Hb; now apply append_preserves_inv|].
  exact MakeUnicodeString_inv.
Qed.

Lemma operations_preserve_sentinel_witness :
  sentinel_inv ustring_new
  /\ (exists r, append_unit ustring_new 0x61 = Ret r /\ sentinel_inv r)
  /\ (exists r, append ustring_new (mk_ustring [0x61; 0]) = Ret r
                /\ sentinel_inv r)
  /\ (exists r, substr (mk_ustring [0x61; 0x62; 0]) 1 1 = Ret r
                /\ sentinel_inv r).
Proof.
  destruct operations_preserve_sentinel
    as (Hnew & _ & _ & _ & Hsub & Hunit & Happ & _ & _).
  assert (Hab : sentinel_inv (mk_ustring [0x61; 0x62; 0]))
    by inv_by_computation.
  assert (Ha : sentinel_inv (mk_ustring [0x61; 0]))
    by inv_by_computation.
  split; [exact Hnew|]. split; [exact (Hunit ustring_new 0x61 Hnew)|].
  split; [exact (Happ ustring_new (mk_ustring [0x61; 0]) Hnew Ha)|].
  apply (Hsub (mk_ustring [0x61; 0x62; 0]) 1 1 Hab).
  - vm_compute. discriminate.
  - vm_compute. split; [discriminate | reflexivity].
  - vm_compute. split; discriminate.
  - right. vm_compute. discriminate.
Defined.

(** * Further properties of the class *)

Lemma ustring_ext (a b : ustring) : _str a = _str b -> a = b.
Proof. destruct a, b. cbn. now intros ->. Qed.

Lemma ustring_rebuild (s : ustring) :
  sentinel_inv s -> mk_ustring (units s ++ [0]) = s.
Proof.
  intros H. apply ustring_ext. cbn [_str]. symmetry. now apply sentinel_inv_units.
Qed.

(** ** operator== *)

(** X1: [operator==] compares the storage vectors; on buffers that keep the
    sentinel invariant it holds exactly when the logical contents are
    equal. *)
Theorem ustring_eqb_content (a b : ustring) :
  sentinel_inv a -> sentinel_inv b ->
  (ustring_eqb a b = true <-> units a = units b).
Proof.
  intros Ha Hb. unfold ustring_eqb.
  destruct (list_eq_dec Z.eq_dec (_str b) (_str a)) as [E|E]; split;
    intros H; try reflexivity; try discriminate.
  - rewrite (sentinel_inv_units a Ha), (sentinel_inv_units b Hb) in E.
    symmetry. now apply app_inv_tail in E.
  - exfalso. apply E.
    now rewrite (sentinel_inv_units a Ha), (sentinel_inv_units b Hb), H.
Qed.

Lemma ustring_eqb_content_witness :
  ustring_eqb (mk_ustring [0x61; 0]) (mk_ustring [0x61; 0]) = true
  <-> units (mk_ustring [0x61; 0]) = units (mk_ustring [0x61; 0]).
Proof.
  apply ustring_eqb_content; inv_by_computation.
Defined.

(** ** The constructor from a unit pointer *)

Lemma before_zero_is_nonzero (us : list Z) : Forall nonzero (before_zero us).
Proof.
  induction us as [|u us IH]; cbn [before_zero]; [constructor|].
  destruct (Z.eqb_spec u 0); [constructor | now constructor].
Qed.

Lemma before_zero_split (us : list Z) :
  In 0 us -> exists rest, us = before_zero us ++ 0 :: rest.
Proof.
  induction us as [|u us IH]; intros Hin; [contradiction|].
  cbn [before_zero]. destruct (Z.eqb_spec u 0) as [->|Hu].
  - now exists us.
  - destruct Hin as [E|Hin]; [congruence|].
    destruct (IH Hin) as [rest Hrest]. exists rest.
    cbn [app]. now rewrite <- Hrest.
Qed.

Lemma count_units_unterminated (mem : list Z) :
  ~ In 0 mem -> forall i, count_units mem i = Undefined.
Proof.
  induction mem as [|u mem IH]; intros Hnot i; [reflexivity|].
  cbn [count_units]. destruct (Z.eqb_spec u 0) as [E|E].
  - exfalso. apply Hnot. now left.
  - apply IH. intros Hin. apply Hnot. now right.
Qed.

(** X2: the constructor from a pointer copies the units that precede the
    first zero unit of the array and nothing behind it, so the content of
    the buffer it builds holds no zero unit; on an array without a zero unit
    it reads past the end of the array. *)
Theorem ustring_of_ptr_copies_to_terminator (mem : list Z) :
  (In 0 mem -> size (before_zero mem) <= max_size ->
   exists r, ustring_of_ptr (Some mem) = Ret r
             /\ units r = before_zero mem
             /\ Forall nonzero (units r))
  /\ (~ In 0 mem -> ustring_of_ptr (Some mem) = Undefined).
Proof.
  split.
  - intros Hin Hsz. destruct (before_zero_split mem Hin) as [rest Hmem].
    exists (mk_ustring (before_zero mem ++ [0])). split.
    + rewrite Hmem at 1.
      apply ustring_of_ptr_spec; [apply before_zero_is_nonzero | exact Hsz].
    + rewrite units_snoc. split; [reflexivity | apply before_zero_is_nonzero].
  - intros Hnot. unfold ustring_of_ptr.
    now rewrite count_units_unterminated.
Qed.

Lemma ustring_of_ptr_copies_to_terminator_witness :
  (exists r, ustring_of_ptr (Some [0x61; 0x62; 0; 0x63; 0]) = Ret r
             /\ units r = before_zero [0x61; 0x62; 0; 0x63; 0]
             /\ Forall nonzero (units r))
  /\ ustring_of_ptr (Some [0x61; 0x62]) = Undefined.
Proof.
  destruct (ustring_of_ptr_copies_to_terminator [0x61; 0x62; 0; 0x63; 0])
    as [Hterm _].
  destruct (ustring_of_ptr_copies_to_terminator [0x61; 0x62]) as [_ Hunterm].
  split.
  - apply Hterm.
    + cbn. tauto.
    + vm_compute. discriminate.
  - apply Hunterm. cbn. intros [H|[H|H]]; try discriminate; exact H.
Defined.

(** ** substr *)

Lemma substr_in_range_units_witness :
  exists r,
    substr (mk_ustring [0x61; 0x62; 0x63; 0]) 1 5 = Ret r
    /\ length r = Z.min 5 (length (mk_ustring [0x61; 0x62; 0x63; 0]) - 1)
    /\ forall i, 0 <= i < length r ->
                 index r i = index (mk_ustring [0x61; 0x62; 0x63; 0]) (1 + i).
Proof.
  apply (substr_in_range_units (mk_ustring [0x61; 0x62; 0x63; 0]) 1 5).
  - inv_by_computation.
  - vm_compute. discriminate.
  - vm_compute. split; [discriminate | reflexivity].
  - vm_compute. split; discriminate.
  - right. vm_compute. discriminate.
Defined.

(** X4: [substr] throws [std::out_of_range] exactly when [pos >= length()];
    on an empty buffer it therefore throws for every start position, 0
    included. *)
Theorem substr_throws_out_of_range (s : ustring) (pos n : Z) :
  (substr s pos n = Throw out_of_range <-> pos >= length s)
  /\ (sentinel_inv s -> representable s -> empty s = true -> 0 <= pos ->
      substr s pos n = Throw out_of_range).
Proof.
  split; [apply substr_out_of_range_iff|].
  intros Hinv Hr He Hpos. apply substr_out_of_range_iff.
  unfold empty in He. apply Z.eqb_eq in He. lia.
Qed.

Lemma substr_throws_out_of_range_witness :
  substr ustring_new 0 SIZE_MAX = Throw out_of_range.
Proof.
  destruct (substr_throws_out_of_range ustring_new 0 SIZE_MAX) as [_ H].
  apply H.
  - inv_by_computation.
  - vm_compute. discriminate.
  - reflexivity.
  - lia.
Defined.

(** X5: on a non-empty buffer, [substr(0, n)] with any [n >= length()], the
    default [npos] included, returns a buffer equal to the source. *)
Theorem substr_whole (s : ustring) (n : Z) :
  sentinel_inv s -> representable s -> 0 < length s ->
  length s <= n <= SIZE_MAX ->
  substr s 0 n = Ret s /\ ustring_eqb s s = true.
Proof.
  intros Hinv Hr Hne Hn.
  pose proof (length_units s Hinv Hr) as Hlen.
  pose proof Hr as Hr0.
  unfold representable in Hr. rewrite max_size_value in Hr.
  pose proof (sentinel_inv_size s Hinv) as Hsz.
  assert (Hwrap : n = SIZE_MAX \/ 0 + n <= SIZE_MAX) by (right; lia).
  split.
  - rewrite (substr_in_range s 0 n Hinv Hr0 ltac:(lia) ltac:(lia) Hwrap).
    replace (Z.min n (length s - 0)) with (length s) by lia.
    cbn [Z.to_nat skipn]. rewrite Hlen.
    unfold size. rewrite Nat2Z.id, firstn_all.
    f_equal. now apply ustring_rebuild.
  - unfold ustring_eqb. now destruct (list_eq_dec Z.eq_dec (_str s) (_str s)).
Qed.

Lemma substr_whole_witness :
  substr (mk_ustring [0x61; 0x62; 0]) 0 npos = Ret (mk_ustring [0x61; 0x62; 0])
  /\ ustring_eqb (mk_ustring [0x61; 0x62; 0]) (mk_ustring [0x61; 0x62; 0]) = true.
Proof.
  apply (substr_whole (mk_ustring [0x61; 0x62; 0]) npos).
  - inv_by_computation.
  - vm_compute. discriminate.
  - reflexivity.
  - vm_compute. split; discriminate.
Defined.

Lemma empty_false_of_units (s : ustring) :
  sentinel_inv s -> representable s -> units s <> [] -> empty s = false.
Proof.
  intros Hinv Hr Hne. unfold empty. rewrite (length_units s Hinv Hr).
  apply Z.eqb_neq. intros E. now apply size_nil_iff in E.
Qed.

(** X6: splitting a buffer at [k], [0 < k < length()], with [substr(0, k)]
    and [substr(k)], and joining the halves with [operator+] gives the
    buffer back. *)
Theorem substr_split_concat (s : ustring) (k : Z) :
  sentinel_inv s -> representable s -> 0 < k < length s ->
  exists l r,
    substr s 0 k = Ret l /\ substr s k SIZE_MAX = Ret r
    /\ concat l r = Ret s.
Proof.
  intros Hinv Hr Hk.
  pose proof (length_units s Hinv Hr) as Hlen.
  pose proof (sentinel_inv_size s Hinv) as Hsz.
  assert (Hr' : size (_str s) <= 4611686018427387903)
    by (unfold representable in Hr; now rewrite max_size_value in Hr).
  set (us := units s) in *.
  exists (mk_ustring (firstn (Z.to_nat k) us ++ [0])),
         (mk_ustring (skipn (Z.to_nat k) us ++ [0])).
  assert (HkS : 0 <= k <= SIZE_MAX) by (rewrite SIZE_MAX_value; lia).
  assert (HSS : 0 <= SIZE_MAX <= SIZE_MAX) by (rewrite SIZE_MAX_value; lia).
  split; [|split].
  - rewrite (substr_in_range s 0 k Hinv Hr ltac:(lia) HkS ltac:(right; lia)).
    replace (Z.min k (length s - 0)) with k by lia.
    reflexivity.
  - rewrite (substr_in_range s k SIZE_MAX Hinv Hr ltac:(lia) HSS
               ltac:(now left)).
    replace (Z.min SIZE_MAX (length s - k)) with (length s - k)
      by (rewrite SIZE_MAX_value; lia).
    fold us. rewrite firstn_all2; [reflexivity|].
    rewrite length_skipn. unfold size in Hlen. lia.
  - unfold concat. rewrite append_nonempty_spec.
    + rewrite !units_snoc. f_equal. apply ustring_ext. cbn [_str].
      rewrite app_assoc, firstn_skipn. symmetry.
      now apply sentinel_inv_units.
    + apply sentinel_inv_snoc.
    + apply sentinel_inv_snoc.
    + apply empty_false_of_units.
      * apply sentinel_inv_snoc.
      * unfold representable. cbn [_str]. rewrite size_app.
        change (size [0]) with 1. unfold size in *.
        rewrite length_skipn. rewrite max_size_value. lia.
      * rewrite units_snoc. intros E.
        apply (f_equal (@List.length Z)) in E.
        rewrite length_skipn in E. cbn in E. unfold size in Hlen. lia.
Qed.

Lemma substr_split_concat_witness :
  exists l r,
    substr (mk_ustring [0x61; 0x62; 0x63; 0]) 0 1 = Ret l
    /\ substr (mk_ustring [0x61; 0x62; 0x63; 0]) 1 SIZE_MAX = Ret r
    /\ concat l r = Ret (mk_ustring [0x61; 0x62; 0x63; 0]).
Proof.
  apply (substr_split_concat (mk_ustring [0x61; 0x62; 0x63; 0]) 1).
  - inv_by_computation.
  - vm_compute. discriminate.
  - vm_compute. split; reflexivity.
Defined.

(** ** operator+= and operator+ *)

(** X7: [operator+=(uint16_t)] puts the unit behind the content and in
    front of the sentinel: the length grows by one and the new unit is read
    back at the old length, whatever its value, zero included. *)
Theorem append_unit_extends (s : ustring) (c : Z) :
  sentinel_inv s -> size (_str s) + 1 <= max_size ->
  exists r,
    append_unit s c = Ret r
    /\ units r = units s ++ [c]
    /\ length r = length s + 1
    /\ index r (length s) = Ret c
    /\ forall i, 0 <= i < length s -> index r i = index s i.
Proof.
  intros Hinv Hfit.
  pose proof (sentinel_inv_size s Hinv) as Hsz.
  pose proof (size_nonneg (units s)) as Hnn.
  assert (Hr : representable s) by (unfold representable; lia).
  pose proof (length_units s Hinv Hr) as Hlen.
  exists (mk_ustring ((units s ++ [c]) ++ [0])).
  assert (Hir : sentinel_inv (mk_ustring ((units s ++ [c]) ++ [0])))
    by apply sentinel_inv_snoc.
  assert (Hrr : representable (mk_ustring ((units s ++ [c]) ++ [0]))).
  { unfold representable. cbn [_str]. rewrite !size_app.
    change (size [c]) with 1. change (size [0]) with 1. lia. }
  split; [|split; [|split; [|split]]].
  - rewrite append_unit_spec by assumption. now rewrite <- app_assoc.
  - apply units_snoc.
  - rewrite (length_units _ Hir Hrr), units_snoc, size_app, Hlen.
    reflexivity.
  - unfold index. cbn [_str]. rewrite <- app_assoc, Hlen.
    rewrite vec_get_app_r by lia. now rewrite Z.sub_diag.
  - intros i Hi. rewrite (index_units s) by (try assumption; lia).
    unfold index. cbn [_str]. rewrite <- app_assoc.
    apply vec_get_app_l. lia.
Qed.

Lemma append_unit_extends_witness :
  exists r,
    append_unit (mk_ustring [0x61; 0]) 0 = Ret r
    /\ units r = units (mk_ustring [0x61; 0]) ++ [0]
    /\ length r = length (mk_ustring [0x61; 0]) + 1
    /\ index r (length (mk_ustring [0x61; 0])) = Ret 0
    /\ forall i, 0 <= i < length (mk_ustring [0x61; 0]) ->
                 index r i = index (mk_ustring [0x61; 0]) i.
Proof.
  apply (append_unit_extends (mk_ustring [0x61; 0]) 0).
  - inv_by_computation.
  - vm_compute. discriminate.
Defined.

Lemma append_result_inv (a b r : ustring) :
  sentinel_inv a -> sentinel_inv b ->
  _str r = units a ++ units b ++ [0] ->
  sentinel_inv r /\ units r = units a ++ units b
  /\ size (_str r) = size (_str a) + size (_str b) - 1.
Proof.
  intros Ha Hb Hstr. split; [|split].
  - apply sentinel_inv_iff. exists (units a ++ units b).
    now rewrite Hstr, app_assoc.
  - unfold units at 1. rewrite Hstr, app_assoc. apply removelast_last.
  - rewrite Hstr, !size_app, (sentinel_inv_size a Ha), (sentinel_inv_size b Hb).
    change (size [0]) with 1. lia.
Qed.

(** X8: [operator+] is associative: [(a + b) + c] and [a + (b + c)] are the
    same buffer. *)
Theorem concat_assoc (a b c : ustring) :
  sentinel_inv a -> sentinel_inv b -> sentinel_inv c ->
  size (_str a) + size (_str b) + size (_str c) <= max_size ->
  exists ab bc l r,
    concat a b = Ret ab /\ concat b c = Ret bc
    /\ concat ab c = Ret l /\ concat a bc = Ret r
    /\ l = r.
Proof.
  intros Ha Hb Hc Hfit.
  pose proof (size_nonneg (_str a)). pose proof (size_nonneg (_str b)).
  pose proof (size_nonneg (_str c)).
  assert (Hrb : representable b) by (unfold representable; lia).
  assert (Hrc : representable c) by (unfold representable; lia).
  destruct (append_spec a b Ha Hb Hrb) as (ab & Hab & Sab).
  destruct (append_spec b c Hb Hc Hrc) as (bc & Hbc & Sbc).
  destruct (append_result_inv a b ab Ha Hb Sab) as (Iab & Uab & Zab).
  destruct (append_result_inv b c bc Hb Hc Sbc) as (Ibc & Ubc & Zbc).
  assert (Hrbc : representable bc) by (unfold representable; lia).
  destruct (append_spec ab c Iab Hc Hrc) as (l & Hl & Sl).
  destruct (append_spec a bc Ha Ibc Hrbc) as (r & Hr & Sr).
  exists ab, bc, l, r. repeat split; try assumption.
  apply ustring_ext. rewrite Sl, Sr, Uab, Ubc, <- !app_assoc. reflexivity.
Qed.

Lemma concat_assoc_witness :
  exists ab bc l r,
    concat (mk_ustring [0x61; 0]) ustring_new = Ret ab
    /\ concat ustring_new (mk_ustring [0x62; 0x63; 0]) = Ret bc
    /\ concat ab (mk_ustring [0x62; 0x63; 0]) = Ret l
    /\ concat (mk_ustring [0x61; 0]) bc = Ret r
    /\ l = r.
Proof.
  apply (concat_assoc (mk_ustring [0x61; 0]) ustring_new
           (mk_ustring [0x62; 0x63; 0])).
  - inv_by_computation.
  - inv_by_computation.
  - inv_by_computation.
  - vm_compute. discriminate.
Defined.

(** X9: the empty buffer is a left identity of [operator+] as well: the
    default-constructed buffer plus [b] is a buffer equal to [b]. *)
Theorem concat_empty_left (b : ustring) :
  sentinel_inv b -> representable b ->
  exists r, concat ustring_new b = Ret r /\ r = b /\ ustring_eqb r b = true.
Proof.
  intros Hb Hr.
  assert (Hnew : sentinel_inv ustring_new) by inv_by_computation.
  destruct (append_spec ustring_new b Hnew Hb Hr) as (r & Happ & Hstr).
  exists r. split; [exact Happ|].
  assert (E : r = b).
  { apply ustring_ext. rewrite Hstr. cbn [units ustring_new _str removelast app].
    symmetry. now apply sentinel_inv_units. }
  split; [exact E|]. rewrite E. unfold ustring_eqb.
  now destruct (list_eq_dec Z.eq_dec (_str b) (_str b)).
Qed.

Lemma concat_empty_left_witness :
  exists r, concat ustring_new (mk_ustring [0x61; 0x62; 0]) = Ret r
            /\ r = mk_ustring [0x61; 0x62; 0]
            /\ ustring_eqb r (mk_ustring [0x61; 0x62; 0]) = true.
Proof.
  apply (concat_empty_left (mk_ustring [0x61; 0x62; 0])).
  - inv_by_computation.
  - vm_compute. discriminate.
Defined.

(** * Further properties of the search *)

Lemma length_range (s : ustring) : 0 <= length s <= SIZE_MAX.
Proof.
  unfold length, to_size_t. rewrite SIZE_MAX_value, size_t_modulus.
  pose proof (Z.mod_pos_bound (size (_str s) - 1) 18446744073709551616). lia.
Qed.

Lemma index_in_content (s : ustring) (i : Z) :
  sentinel_inv s -> 0 <= i < length s -> exists u, index s i = Ret u.
Proof.
  intros Hinv Hi. pose proof (length_le_units s Hinv) as Hl.
  pose proof (sentinel_inv_size s Hinv) as Hs.
  exists (nth (Z.to_nat i) (_str s) 0). apply vec_get_nth. lia.
Qed.

Section FindLoop.
Variables (s pat : ustring) (from : Z).
Hypothesis s_inv : sentinel_inv s.
Hypothesis pat_inv : sentinel_inv pat.
Hypothesis pat_nonempty : 0 < length pat.
Hypothesis from_nonneg : 0 <= from.

(** The invariant of the scan: the [chars_found] units before [j] agree with
    the start of the pattern. *)
Lemma find_loop_sound :
  forall (r : nat) (j cf : Z),
    0 <= cf < length pat -> from + cf <= j ->
    j + Z.of_nat r <= length s ->
    occurs_at s pat (j - cf) cf ->
    exists k,
      find_loop s pat (length pat) j cf r = Ret k
      /\ (k = npos
          \/ (from <= k /\ k + length pat <= length s
              /\ occurs_at s pat k (length pat))).
Proof using All.
  pose proof (length_range s) as Hls. pose proof (length_range pat) as Hlp.
  induction r as [|r IH]; intros j cf Hcf Hj Hr Hocc.
  - exists npos. split; [reflexivity | now left].
  - cbn [find_loop].
    destruct (index_in_content s j s_inv ltac:(lia)) as [a Ha].
    destruct (index_in_content pat cf pat_inv ltac:(lia)) as [b Hb].
    unfold index in Ha. rewrite Ha, Hb. cbn [bind].
    rewrite (to_size_t_small (cf + 1)) by lia.
    destruct (Z.eqb_spec a b) as [Eab|Nab].
    + assert (Hocc' : occurs_at s pat (j - cf) (cf + 1)).
      { intros i Hi. destruct (Z.eq_dec i cf) as [->|Hne].
        - exists a. replace (j - cf + cf) with j by lia.
          split; [exact Ha | now rewrite Hb, Eab].
        - apply Hocc. lia. }
      destruct (Z.eqb_spec (cf + 1) (length pat)) as [Em|Nm].
      * exists (j - cf). split.
        { f_equal. rewrite <- (to_size_t_small (j - cf)) by lia.
          f_equal. lia. }
        right. split; [lia|]. split; [lia|]. now rewrite <- Em.
      * replace (j - cf) with (j + 1 - (cf + 1)) in Hocc' by lia.
        apply IH; try assumption; lia.
    + apply IH; try lia. intros i Hi. lia.
Qed.

(** A match that starts where the scan starts is found. *)
Lemma find_loop_match_at_start :
  from + length pat <= length s ->
  occurs_at s pat from (length pat) ->
  forall (r : nat) (cf : Z),
    0 <= cf < length pat ->
    from + cf + Z.of_nat r = length s ->
    find_loop s pat (length pat) (from + cf) cf r = Ret from.
Proof using All.
  intros Hfit Hocc.
  pose proof (length_range s) as Hls. pose proof (length_range pat) as Hlp.
  induction r as [|r IH]; intros cf Hcf Hr; [lia|].
  cbn [find_loop].
  destruct (Hocc cf Hcf) as (u & Hs & Hp).
  unfold index in Hs. rewrite Hs, Hp. cbn [bind]. rewrite Z.eqb_refl.
  rewrite (to_size_t_small (cf + 1)) by lia.
  destruct (Z.eqb_spec (cf + 1) (length pat)) as [Em|Nm].
  - f_equal. rewrite <- (to_size_t_small from) at 2 by lia. f_equal. lia.
  - replace (from + cf + 1) with (from + (cf + 1)) by lia.
    apply IH; lia.
Qed.

End FindLoop.

(** X10: [find] with a non-empty pattern always returns, and an index it
    returns other than [npos] is the start of an occurrence of the whole
    pattern that lies inside the haystack at or after [from]: the search
    reports no false match. *)
Theorem find_reports_only_matches (s pat : ustring) (from : Z) :
  sentinel_inv s -> sentinel_inv pat -> 0 < length pat -> 0 <= from ->
  exists k,
    find s pat from = Ret k
    /\ (k <> npos ->
        from <= k /\ k + length pat <= length s
        /\ occurs_at s pat k (length pat)).
Proof.
  intros Hs Hp Hm Hfrom. unfold find.
  destruct (Z_lt_le_dec from (length s)) as [Hlt|Hge].
  - destruct (find_loop_sound s pat from Hs Hp Hm Hfrom
                (Z.to_nat (length s - from)) from 0
                ltac:(lia) ltac:(lia) ltac:(lia))
      as (k & Hk & Hres).
    { intros i Hi. lia. }
    exists k. split; [exact Hk|]. intros Hne.
    destruct Hres as [E|H]; [contradiction | exact H].
  - replace (Z.to_nat (length s - from)) with 0%nat by lia.
    exists npos. split; [reflexivity|]. intros Hne. contradiction.
Qed.

Lemma find_reports_only_matches_witness :
  exists k,
    find (mk_ustring [0x61; 0x62; 0x63; 0]) (mk_ustring [0x62; 0x63; 0]) 0 = Ret k
    /\ (k <> npos ->
        0 <= k
        /\ k + length (mk_ustring [0x62; 0x63; 0])
           <= length (mk_ustring [0x61; 0x62; 0x63; 0])
        /\ occurs_at (mk_ustring [0x61; 0x62; 0x63; 0])
                     (mk_ustring [0x62; 0x63; 0]) k
                     (length (mk_ustring [0x62; 0x63; 0]))).
Proof.
  apply (find_reports_only_matches (mk_ustring [0x61; 0x62; 0x63; 0])
           (mk_ustring [0x62; 0x63; 0]) 0).
  - inv_by_computation.
  - inv_by_computation.
  - reflexivity.
  - lia.
Defined.

(** X11: when the pattern occurs in the haystack at the start position
    itself, [find] returns that position; in particular a non-empty buffer
    finds itself at 0. *)
Theorem find_match_at_start (s pat : ustring) (from : Z) :
  sentinel_inv s -> sentinel_inv pat -> 0 < length pat -> 0 <= from ->
  from + length pat <= length s ->
  occurs_at s pat from (length pat) ->
  find s pat from = Ret from.
Proof.
  intros Hs Hp Hm Hfrom Hfit Hocc. unfold find.
  pose proof (find_loop_match_at_start s pat from Hs Hp Hm Hfrom Hfit Hocc
                (Z.to_nat (length s - from)) 0 ltac:(lia) ltac:(lia)) as H.
  now rewrite Z.add_0_r in H.
Qed.

Lemma find_match_at_start_witness :
  find (mk_ustring [0x61; 0x61; 0x62; 0]) (mk_ustring [0x61; 0x61; 0x62; 0]) 0
  = Ret 0.
Proof.
  apply find_match_at_start.
  - inv_by_computation.
  - inv_by_computation.
  - reflexivity.
  - lia.
  - vm_compute. discriminate.
  - intros i Hi.
    assert (Hlen : length (mk_ustring [0x61; 0x61; 0x62; 0]) = 3) by reflexivity.
    rewrite Hlen in Hi.
    assert (i = 0 \/ i = 1 \/ i = 2) as [-> | [-> | ->]] by lia;
      eexists; split; reflexivity.
Defined.

Lemma find_loop_single_unit (s : ustring) (c : Z) :
  forall (r : nat) (j : Z),
    0 <= j -> j + Z.of_nat r <= SIZE_MAX + 1 ->
    find_loop s (mk_ustring [c; 0]) 1 j 0 r = find_unit_loop s c j r.
Proof.
  induction r as [|r IH]; intros j Hj Hr; [reflexivity|].
  cbn [find_loop find_unit_loop].
  destruct (vec_get (_str s) j) as [a| |]; cbn [bind]; try reflexivity.
  change (index (mk_ustring [c; 0]) 0) with (Ret c). cbn [bind].
  change (to_size_t (0 + 1) =? 1) with true. cbv iota.
  change (to_size_t (0 + 1)) with 1.
  destruct (a =? c).
  - f_equal. replace (j - 1 + 1) with j by lia. apply to_size_t_small. lia.
  - apply IH; lia.
Qed.

(** X12: searching for a pattern of exactly one unit gives the same answer
    as searching for that unit. *)
Theorem find_single_unit_pattern (s : ustring) (c from : Z) :
  0 <= from ->
  find s (mk_ustring [c; 0]) from = find_unit s c from.
Proof.
  intros Hfrom. unfold find, find_unit.
  change (length (mk_ustring [c; 0])) with 1.
  pose proof (length_range s) as Hls.
  destruct (Z_lt_le_dec from (length s)) as [Hlt|Hge].
  - apply find_loop_single_unit; lia.
  - replace (Z.to_nat (length s - from)) with 0%nat by lia. reflexivity.
Qed.

Lemma find_single_unit_pattern_witness :
  find (mk_ustring [0x61; 0x62; 0x61; 0]) (mk_ustring [0x62; 0]) 0
  = find_unit (mk_ustring [0x61; 0x62; 0x61; 0]) 0x62 0.
Proof.
  apply find_single_unit_pattern. lia.
Defined.

(** * Further properties of the conversions *)

(** ** MakeStandardString *)

Lemma before_zero_length (us : list Z) :
  (List.length (before_zero us) <= List.length us)%nat.
Proof.
  induction us as [|u us IH]; cbn [before_zero List.length]; [lia|].
  destruct (u =? 0); cbn [List.length]; lia.
Qed.

Lemma before_zero_uint16 (us : list Z) :
  Forall is_uint16 us -> Forall is_uint16 (before_zero us).
Proof.
  induction 1 as [|u us Hu _ IH]; cbn [before_zero]; [constructor|].
  destruct (u =? 0); [constructor | now constructor].
Qed.

Lemma before_zero_app (l m : list Z) :
  Forall nonzero l -> before_zero (l ++ m) = l ++ before_zero m.
Proof.
  induction 1 as [|u l Hu _ IH]; [reflexivity|].
  cbn [app before_zero]. destruct (Z.eqb_spec u 0); [contradiction|].
  now rewrite IH.
Qed.

(** X13: [MakeStandardString] returns for every buffer of 16-bit units; the
    string it returns never holds a zero byte and never has more bytes than
    the buffer has units. *)
Theorem encode_output_bounds (s : ustring) :
  sentinel_inv s -> representable s -> Forall is_uint16 (units s) ->
  exists out,
    MakeStandardString s = Ret out
    /\ size out <= length s
    /\ ~ In "000"%byte out.
Proof.
  intros Hinv Hr Hu.
  exists (map narrow_unit (before_zero (units s))).
  split; [now apply MakeStandardString_spec|]. split.
  - rewrite size_map, (length_units s Hinv Hr). unfold size.
    pose proof (before_zero_length (units s)). lia.
  - intros Hin. apply in_map_iff in Hin. destruct Hin as (u & Hnarrow & Hin).
    pose proof (before_zero_is_nonzero (units s)) as Hnz.
    pose proof (before_zero_uint16 (units s) Hu) as Hu16.
    rewrite Forall_forall in Hnz, Hu16.
    apply (Hnz u Hin). now apply (narrow_unit_zero u (Hu16 u Hin)).
Qed.

Lemma encode_output_bounds_witness :
  exists out,
    MakeStandardString (mk_ustring [0x41; 0; 0x42; 0]) = Ret out
    /\ size out <= length (mk_ustring [0x41; 0; 0x42; 0])
    /\ ~ In "000"%byte out.
Proof.
  apply (encode_output_bounds (mk_ustring [0x41; 0; 0x42; 0])).
  - inv_by_computation.
  - vm_compute. discriminate.
  - repeat constructor; discriminate.
Defined.

(** X14: conversion distributes over concatenation when the left operand
    holds no zero unit: the string of [a + b] is the string of [a] followed
    by the string of [b]. *)
Theorem encode_concat (a b : ustring) :
  sentinel_inv a -> sentinel_inv b ->
  size (_str a) + size (_str b) - 1 <= max_size ->
  Forall is_uint16 (units a) -> Forall is_uint16 (units b) ->
  Forall nonzero (units a) ->
  exists r ea eb,
    concat a b = Ret r
    /\ MakeStandardString a = Ret ea
    /\ MakeStandardString b = Ret eb
    /\ MakeStandardString r = Ret (ea ++ eb).
Proof.
  intros Ha Hb Hfit Hua Hub Hnz.
  pose proof (sentinel_inv_size a Ha) as Hsa.
  pose proof (sentinel_inv_size b Hb) as Hsb.
  pose proof (size_nonneg (units a)). pose proof (size_nonneg (units b)).
  assert (Hra : representable a) by (unfold representable; lia).
  assert (Hrb : representable b) by (unfold representable; lia).
  destruct (append_spec a b Ha Hb Hrb) as (r & Hr & Hstr).
  destruct (append_result_inv a b r Ha Hb Hstr) as (Ir & Ur & Zr).
  assert (Hrr : representable r) by (unfold representable; lia).
  exists r, (map narrow_unit (before_zero (units a))),
         (map narrow_unit (before_zero (units b))).
  split; [exact Hr|].
  split; [now apply MakeStandardString_spec|].
  split; [now apply MakeStandardString_spec|].
  rewrite MakeStandardString_spec; try assumption.
  - rewrite Ur, before_zero_app, (before_zero_nonzero (units a)), map_app;
      try assumption. reflexivity.
  - rewrite Ur. apply Forall_app. now split.
Qed.

Lemma encode_concat_witness :
  exists r ea eb,
    concat (mk_ustring [0x41; 0x4E2D; 0]) (mk_ustring [0x42; 0]) = Ret r
    /\ MakeStandardString (mk_ustring [0x41; 0x4E2D; 0]) = Ret ea
    /\ MakeStandardString (mk_ustring [0x42; 0]) = Ret eb
    /\ MakeStandardString r = Ret (ea ++ eb).
Proof.
  apply (encode_concat (mk_ustring [0x41; 0x4E2D; 0]) (mk_ustring [0x42; 0])).
  - inv_by_computation.
  - inv_by_computation.
  - vm_compute. discriminate.
  - repeat constructor; discriminate.
  - repeat constructor; discriminate.
  - repeat constructor; discriminate.
Defined.

(** ** MakeUnicodeString *)

(** X15: the empty string converts to the empty buffer on every host,
    whether or not [iconv] can be opened. *)
Theorem decode_empty (p : platform) :
  MakeUnicodeString p [] = Ret ustring_new.
Proof.
  unfold MakeUnicodeString. cbn [size List.length Z.of_nat].
  change (to_size_t (0 + 1)) with 1.
  change (vec_reserve 1) with (Ret tt). cbn [bind UTF8ToUTF16].
  change (Z.to_nat 1) with 1%nat. cbn [repeat].
  change (vec_get [0] 0) with (Ret 0). cbn [bind].
  change ((0 =? UTF_16_BOM_STD) || (0 =? UTF_16_BOM_REV)) with false.
  cbv iota. cbn [bind].
  destruct (big_endian p); reflexivity.
Qed.

Lemma decode_bom_little_endian_witness :
  MakeUnicodeString host_le_bom [xef; xbb; xbf; x61] = Ret (mk_ustring [0x61; 0]).
Proof.
  apply (decode_bom_little_endian host_le_bom [xef; xbb; xbf; x61]
           0xFEFF [0x61] []).
  - discriminate.
  - vm_compute. discriminate.
  - reflexivity.
  - reflexivity.
  - reflexivity.
  - left. reflexivity.
  - repeat constructor; discriminate.
  - vm_compute. discriminate.
Defined.

Lemma reserve_fits (k : Z) : k <= max_size -> vec_reserve k = Ret tt.
Proof. intros H. unfold vec_reserve. now rewrite gtb_false. Qed.

Lemma UTF8ToUTF16_success (p : platform) (text : std_string) (dest written : list Z) :
  text <> [] -> iconv_open_ok p = true ->
  iconv p (text ++ ["000"%byte]) = (true, written) ->
  UTF8ToUTF16 p text dest
  = (true, store_units dest written (to_size_t ((size text + 1) * 2))).
Proof.
  intros Hne Hopen Hconv. unfold UTF8ToUTF16. rewrite Hopen, Hconv.
  destruct text; [contradiction | reflexivity].
Qed.

(** X17: on a little-endian build, when [iconv] succeeds and the first unit
    it stored is no mark, the result holds the stored units up to the first
    zero unit, unchanged. *)
Theorem decode_little_endian (p : platform) (text : std_string)
        (body rest : list Z) :
  text <> [] -> size text + 1 <= max_size ->
  big_endian p = false -> iconv_open_ok p = true ->
  iconv p (text ++ ["000"%byte]) = (true, body ++ 0 :: rest) ->
  hd 0 body <> UTF_16_BOM_STD -> hd 0 body <> UTF_16_BOM_REV ->
  Forall nonzero body -> size body + 1 <= size text + 1 ->
  MakeUnicodeString p text = Ret (mk_ustring (body ++ [0])).
Proof.
  intros Hne Hsz Hle Hopen Hconv Hstd Hrev Hnz Hroom.
  pose proof (size_nonneg text) as Hnn. pose proof (size_nonneg body) as Hnb.
  unfold MakeUnicodeString.
  rewrite (to_size_t_small (size text + 1))
    by (rewrite max_size_value in Hsz; rewrite SIZE_MAX_value; lia).
  rewrite reserve_fits by assumption. cbn [bind].
  rewrite (UTF8ToUTF16_success p text _ _ Hne Hopen Hconv).
  destruct (store_units_prefix (repeat 0 (Z.to_nat (size text + 1)))
              (body ++ [0]) rest (to_size_t ((size text + 1) * 2)))
    as [rest' Hubuff].
  { rewrite dest_len_units by assumption.
    rewrite size_app. change (size [0]) with 1. lia. }
  rewrite <- !app_assoc in Hubuff. cbn [app] in Hubuff. rewrite Hubuff.
  assert (H0 : vec_get (body ++ 0 :: rest') 0 = Ret (hd 0 body))
    by (now destruct body).
  rewrite H0. cbn [bind].
  replace ((hd 0 body =? UTF_16_BOM_STD) || (hd 0 body =? UTF_16_BOM_REV))
    with false
    by (symmetry; apply orb_false_iff; split; now apply Z.eqb_neq).
  cbn [bind]. rewrite Hle. cbn [bind Z.to_nat skipn].
  apply ustring_of_ptr_spec; [assumption | lia].
Qed.

Lemma decode_little_endian_witness :
  MakeUnicodeString host_ascii_le ["a"%byte; "b"%byte]
  = Ret (mk_ustring ([0x61; 0x62] ++ [0])).
Proof.
  apply (decode_little_endian host_ascii_le ["a"%byte; "b"%byte]
           [0x61; 0x62] []).
  - discriminate.
  - vm_compute. discriminate.
  - reflexivity.
  - reflexivity.
  - reflexivity.
  - discriminate.
  - discriminate.
  - repeat constructor; discriminate.
  - vm_compute. discriminate.
Defined.

Lemma copy_units_nonzero (mem : list Z) :
  forall acc l,
    copy_units mem acc = Ret l ->
    exists body, l = acc ++ body /\ Forall nonzero body.
Proof.
  induction mem as [|u mem IH]; intros acc l H; [discriminate|].
  cbn [copy_units] in H. destruct (Z.eqb_spec u 0) as [E|E].
  - injection H as <-. exists []. now rewrite app_nil_r.
  - destruct (IH _ _ H) as (body & -> & Hnz).
    exists (u :: body). rewrite <- app_assoc. split; [reflexivity|].
    now constructor.
Qed.

Lemma ustring_of_ptr_nonzero (m : option (list Z)) (r : ustring) :
  ustring_of_ptr m = Ret r -> Forall nonzero (units r).
Proof.
  destruct m as [mem|]; cbn [ustring_of_ptr].
  - destruct (count_units mem 0); cbn [bind]; try discriminate.
    destruct (vec_reserve a); cbn [bind]; try discriminate.
    destruct (copy_units mem []) as [l| |] eqn:Hcopy; cbn [bind];
      try discriminate.
    intros [= <-]. rewrite units_snoc.
    destruct (copy_units_nonzero mem [] l Hcopy) as (body & -> & Hnz).
    exact Hnz.
  - intros [= <-]. constructor.
Qed.

(** X18: whatever the host and whatever [iconv] does, a buffer that
    [MakeUnicodeString] returns holds no zero unit in its content. *)
Theorem decode_result_has_no_zero_unit (p : platform) (text : std_string)
        (r : ustring) :
  MakeUnicodeString p text = Ret r -> Forall nonzero (units r).
Proof.
  unfold MakeUnicodeString.
  destruct (vec_reserve _); cbn [bind]; try discriminate.
  destruct (UTF8ToUTF16 _ _ _) as [ok ubuff]. destruct ok.
  - destruct (vec_get ubuff 0); cbn [bind]; try discriminate.
    destruct (_ || _).
    + destruct (vec_get ubuff 1); cbn [bind]; try discriminate.
      destruct (big_endian p); [destruct (swap_loop _ _ _ _)|];
        cbn [bind]; try discriminate; apply ustring_of_ptr_nonzero.
    + cbn [bind].
      destruct (big_endian p); [destruct (swap_loop _ _ _ _)|];
        cbn [bind]; try discriminate; apply ustring_of_ptr_nonzero.
  - destruct (widen_loop _ _ _ _ _ _) as [[u f]| |]; cbn [bind push_back];
      try discriminate.
    destruct (f && _); [apply ustring_of_ptr_nonzero | discriminate].
Qed.

Lemma decode_result_has_no_zero_unit_witness :
  Forall nonzero (units (mk_ustring [0x61; 0])).
Proof.
  apply (decode_result_has_no_zero_unit host_le_bom [xef; xbb; xbf; x61]).
  reflexivity.
Defined.

(** ** The big-endian pass *)

Lemma swap_if_high_zero : swap_if_high 0 = 0.
Proof. reflexivity. Qed.

(** The loop of the pass is [swap_if_high] applied to every unit. *)
Lemma swap_loop_spec :
  forall (todo done : list Z),
    swap_loop (map swap_if_high done ++ todo) 0 (size done) (List.length todo)
    = Ret (map swap_if_high (done ++ todo)).
Proof.
  induction todo as [|u todo IH]; intros done.
  - cbn. now rewrite !app_nil_r.
  - cbn [List.length swap_loop]. rewrite Z.add_0_l.
    rewrite <- (size_map swap_if_high done) at 1.
    rewrite vec_get_app_r by lia. rewrite Z.sub_diag.
    change (vec_get (u :: todo) 0) with (Ret u). cbn [bind].
    assert (Hstep :
              (if Z.land u 0xFF80 =? 0
               then Ret (map swap_if_high done ++ u :: todo)
               else vec_set (map swap_if_high done ++ u :: todo) (size done)
                            (to_uint16 (Z.lor (Z.shiftl u 8) (Z.shiftr u 8))))
              = Ret (map swap_if_high (done ++ [u]) ++ todo)).
    { rewrite map_app, <- app_assoc. cbn [map app].
      change (swap_if_high u)
        with (if Z.land u 0xFF80 =? 0 then u
              else to_uint16 (Z.lor (Z.shiftl u 8) (Z.shiftr u 8))).
      destruct (Z.land u 0xFF80 =? 0); [reflexivity|].
      rewrite <- (size_map swap_if_high done). apply vec_set_middle. }
    rewrite Hstep. cbn [bind].
    replace (size done + 1) with (size (done ++ [u]))
      by (rewrite size_app; reflexivity).
    rewrite IH, <- app_assoc. reflexivity.
Qed.

Lemma swap_if_high_nonzero (u : Z) :
  is_uint16 u -> nonzero u -> nonzero (swap_if_high u).
Proof.
  intros Hu Hnz. unfold is_uint16 in Hu. unfold nonzero in *.
  unfold swap_if_high. destruct (Z.land u 0xFF80 =? 0); [exact Hnz|].
  assert (Hpos : 0 < u) by lia.
  pose proof (Z.bit_log2 u Hpos) as Hbit.
  pose proof (Z.log2_nonneg u) as Hlog.
  assert (Hlt : Z.log2 u < 16) by (apply Z.log2_lt_pow2; lia).
  unfold to_uint16. intros Hzero.
  destruct (Z_lt_le_dec (Z.log2 u) 8) as [Hlow|Hhigh].
  - assert (Hb : Z.testbit
                   ((Z.lor (Z.shiftl u 8) (Z.shiftr u 8)) mod 2 ^ 16)
                   (Z.log2 u + 8) = true).
    { rewrite Z.mod_pow2_bits_low by lia.
      rewrite Z.lor_spec, Z.shiftl_spec by lia.
      replace (Z.log2 u + 8 - 8) with (Z.log2 u) by lia.
      now rewrite Hbit. }
    rewrite Hzero, Z.testbit_0_l in Hb. discriminate.
  - assert (Hb : Z.testbit
                   ((Z.lor (Z.shiftl u 8) (Z.shiftr u 8)) mod 2 ^ 16)
                   (Z.log2 u - 8) = true).
    { rewrite Z.mod_pow2_bits_low by lia.
      rewrite Z.lor_spec, Z.shiftr_spec by lia.
      replace (Z.log2 u - 8 + 8) with (Z.log2 u) by lia.
      rewrite Hbit. apply orb_true_r. }
    rewrite Hzero, Z.testbit_0_l in Hb. discriminate.
Qed.

(** X19: on a big-endian build, when [iconv] succeeds and the first unit it
    stored is no mark, every stored unit up to the first zero unit goes
    through the byte swap: a unit below 0x80 is kept, any other unit comes
    out with its two bytes exchanged (0x00E9 as 0xE900). *)
Theorem decode_big_endian_swaps (p : platform) (text : std_string)
        (body rest : list Z) :
  text <> [] -> size text + 1 <= max_size ->
  big_endian p = true -> iconv_open_ok p = true ->
  iconv p (text ++ ["000"%byte]) = (true, body ++ 0 :: rest) ->
  hd 0 body <> UTF_16_BOM_STD -> hd 0 body <> UTF_16_BOM_REV ->
  Forall is_uint16 body -> Forall nonzero body ->
  size body + 1 <= size text + 1 ->
  MakeUnicodeString p text = Ret (mk_ustring (map swap_if_high body ++ [0])).
Proof.
  intros Hne Hsz Hbe Hopen Hconv Hstd Hrev Hu16 Hnz Hroom.
  pose proof (size_nonneg text) as Hnn. pose proof (size_nonneg body) as Hnb.
  unfold MakeUnicodeString.
  rewrite (to_size_t_small (size text + 1))
    by (rewrite max_size_value in Hsz; rewrite SIZE_MAX_value; lia).
  rewrite reserve_fits by assumption. cbn [bind].
  rewrite (UTF8ToUTF16_success p text _ _ Hne Hopen Hconv).
  set (ubuff := store_units _ _ _).
  assert (Hsize : size ubuff = size text + 1).
  { unfold ubuff. rewrite store_units_size.
    - unfold size. rewrite repeat_length. lia.
    - rewrite dest_len_units by assumption.
      unfold size. rewrite repeat_length. lia. }
  destruct (store_units_prefix (repeat 0 (Z.to_nat (size text + 1)))
              (body ++ [0]) rest (to_size_t ((size text + 1) * 2)))
    as [rest' Hubuff].
  { rewrite dest_len_units by assumption.
    rewrite size_app. change (size [0]) with 1. lia. }
  rewrite <- !app_assoc in Hubuff. cbn [app] in Hubuff. fold ubuff in Hubuff.
  assert (H0 : vec_get ubuff 0 = Ret (hd 0 body))
    by (rewrite Hubuff; now destruct body).
  rewrite H0. cbn [bind].
  replace ((hd 0 body =? UTF_16_BOM_STD) || (hd 0 body =? UTF_16_BOM_REV))
    with false
    by (symmetry; apply orb_false_iff; split; now apply Z.eqb_neq).
  cbn [bind]. rewrite Hbe.
  replace (Z.to_nat (size text + 1)) with (List.length ubuff)
    by (rewrite <- Hsize; unfold size; lia).
  pose proof (swap_loop_spec ubuff []) as Hloop.
  cbn [map app] in Hloop. change (size (@nil Z)) with 0 in Hloop.
  rewrite Hloop. cbn [bind Z.to_nat skipn].
  rewrite Hubuff, map_app. cbn [map]. rewrite swap_if_high_zero.
  apply ustring_of_ptr_spec.
  - clear - Hu16 Hnz. induction body as [|u body IH]; [constructor|].
    inversion Hu16; inversion Hnz; subst. cbn [map]. constructor.
    + now apply swap_if_high_nonzero.
    + now apply IH.
  - rewrite size_map. lia.
Qed.

Lemma decode_big_endian_swaps_witness :
  MakeUnicodeString host_be_accent ["A"%byte; xc3; xa9]
  = Ret (mk_ustring (map swap_if_high [0x41; 0xE9] ++ [0]))
  /\ map swap_if_high [0x41; 0xE9] = [0x41; 0xE900].
Proof.
  split; [|reflexivity].
  apply (decode_big_endian_swaps host_be_accent ["A"%byte; xc3; xa9]
           [0x41; 0xE9] []).
  - discriminate.
  - vm_compute. discriminate.
  - reflexivity.
  - reflexivity.
  - reflexivity.
  - discriminate.
  - discriminate.
  - repeat constructor; discriminate.
  - repeat constructor; discriminate.
  - vm_compute. discriminate.
Defined.

(** ** Round trip on 7-bit text *)

Lemma Z_of_byte_range (b : byte) : 0 <= Z_of_byte b < 256.
Proof.
  unfold Z_of_byte. pose proof (Byte.to_N_bounded b). lia.
Qed.

Lemma narrow_unit_of_byte (b : byte) : narrow_unit (Z_of_byte b) = b.
Proof.
  pose proof (Z_of_byte_range b) as Hb. unfold narrow_unit.
  rewrite gtb_false by lia. unfold byte_of_Z.
  rewrite Z.mod_small by lia. unfold Z_of_byte.
  now rewrite N2Z.id, Byte.of_to_N.
Qed.

Lemma swap_if_high_ascii (b : byte) :
  is_ascii b -> swap_if_high (Z_of_byte b) = Z_of_byte b.
Proof.
  unfold is_ascii. intros [_ H].
  destruct b; try reflexivity; exfalso; revert H; vm_compute; discriminate.
Qed.

Lemma ascii_units (text : std_string) :
  Forall is_ascii text ->
  Forall nonzero (map Z_of_byte text)
  /\ Forall is_uint16 (map Z_of_byte text)
  /\ map swap_if_high (map Z_of_byte text) = map Z_of_byte text
  /\ hd 0 (map Z_of_byte text) < 128.
Proof.
  induction 1 as [|b text Hb _ (Hnz & Hu & Hsw & _)].
  - repeat split; constructor.
  - pose proof (Z_of_byte_range b) as Hr. unfold is_ascii in Hb.
    cbn [map hd]. repeat split.
    + constructor; [unfold nonzero; lia | exact Hnz].
    + constructor; [unfold is_uint16; change (2 ^ 16) with 65536; lia | exact Hu].
    + rewrite Hsw, swap_if_high_ascii; [reflexivity | exact Hb].
    + lia.
Qed.

(** X20: on text of non-zero 7-bit bytes, on either byte order, when
    [iconv] stores each byte as the unit of the same value the two
    conversions are inverse: [MakeUnicodeString] returns one unit per byte
    and [MakeStandardString] of that buffer returns the text. *)
Theorem ascii_round_trip (p : platform) (text : std_string) :
  text <> [] -> Forall is_ascii text -> size text + 1 <= max_size ->
  iconv_open_ok p = true ->
  iconv p (text ++ ["000"%byte]) = (true, map Z_of_byte (text ++ ["000"%byte])) ->
  MakeUnicodeString p text = Ret (widened text)
  /\ MakeStandardString (widened text) = Ret text.
Proof.
  intros Hne Hascii Hsz Hopen Hconv.
  destruct (ascii_units text Hascii) as (Hnz & Hu16 & Hswap & Hhd).
  pose proof (size_nonneg text) as Hnn.
  set (body := map Z_of_byte text) in *.
  assert (Hbody : size body = size text) by apply size_map.
  split.
  - unfold MakeUnicodeString.
    rewrite (to_size_t_small (size text + 1))
      by (rewrite max_size_value in Hsz; rewrite SIZE_MAX_value; lia).
    rewrite reserve_fits by assumption. cbn [bind].
    rewrite (UTF8ToUTF16_success p text _ _ Hne Hopen Hconv).
    set (ubuff := store_units _ _ _).
    assert (Hsize : size ubuff = size text + 1).
    { unfold ubuff. rewrite store_units_size.
      - unfold size. rewrite repeat_length. lia.
      - rewrite dest_len_units by assumption.
        unfold size. rewrite repeat_length. lia. }
    destruct (store_units_prefix (repeat 0 (Z.to_nat (size text + 1)))
                (body ++ [0]) [] (to_size_t ((size text + 1) * 2)))
      as [rest' Hubuff].
    { rewrite dest_len_units by assumption.
      rewrite size_app. change (size [0]) with 1. lia. }
    rewrite app_nil_r in Hubuff.
    replace (body ++ [0]) with (map Z_of_byte (text ++ ["000"%byte]))
      in Hubuff at 1 by (now rewrite map_app).
    fold ubuff in Hubuff. rewrite <- app_assoc in Hubuff. cbn [app] in Hubuff.
    assert (H0 : vec_get ubuff 0 = Ret (hd 0 body))
      by (rewrite Hubuff; now destruct body).
    rewrite H0. cbn [bind].
    replace ((hd 0 body =? UTF_16_BOM_STD) || (hd 0 body =? UTF_16_BOM_REV))
      with false
      by (symmetry; apply orb_false_iff; split; apply Z.eqb_neq;
          unfold UTF_16_BOM_STD, UTF_16_BOM_REV; lia).
    cbn [bind]. destruct (big_endian p).
    + replace (Z.to_nat (size text + 1)) with (List.length ubuff)
        by (rewrite <- Hsize; unfold size; lia).
      pose proof (swap_loop_spec ubuff []) as Hloop.
      cbn [map app] in Hloop. change (size (@nil Z)) with 0 in Hloop.
      rewrite Hloop. cbn [bind Z.to_nat skipn].
      rewrite Hubuff, map_app, Hswap. cbn [map]. rewrite swap_if_high_zero.
      apply ustring_of_ptr_spec; [assumption | lia].
    + cbn [bind Z.to_nat skipn]. rewrite Hubuff.
      apply ustring_of_ptr_spec; [assumption | lia].
  - unfold widened. fold body.
    rewrite MakeStandardString_spec.
    + rewrite units_snoc, before_zero_nonzero by assumption.
      apply f_equal. unfold body. rewrite map_map.
      rewrite <- (map_id text) at 2. apply map_ext, narrow_unit_of_byte.
    + apply sentinel_inv_snoc.
    + unfold representable. cbn [_str]. rewrite size_app.
      change (size [0]) with 1. lia.
    + now rewrite units_snoc.
Qed.

Lemma ascii_round_trip_witness :
  (MakeUnicodeString host_ascii_be ["h"%byte; "i"%byte]
   = Ret (widened ["h"%byte; "i"%byte])
   /\ MakeStandardString (widened ["h"%byte; "i"%byte])
      = Ret ["h"%byte; "i"%byte])
  /\ (MakeUnicodeString host_ascii_le ["h"%byte; "i"%byte]
      = Ret (widened ["h"%byte; "i"%byte])
      /\ MakeStandardString (widened ["h"%byte; "i"%byte])
         = Ret ["h"%byte; "i"%byte]).
Proof.
  split.
  - apply (ascii_round_trip host_ascii_be ["h"%byte; "i"%byte]).
    + discriminate.
    + repeat constructor.
    + vm_compute. discriminate.
    + reflexivity.
    + reflexivity.
  - apply (ascii_round_trip host_ascii_le ["h"%byte; "i"%byte]).
    + discriminate.
    + repeat constructor.
    + vm_compute. discriminate.
    + reflexivity.
    + reflexivity.
Defined.

(** ** Conversion of a substring *)

Lemma Forall_slice {A : Type} (P : A -> Prop) (l : list A) (p k : nat) :
  Forall P l -> Forall P (firstn k (skipn p l)).
Proof.
  intros H. revert p k. induction H as [|x l Hx Hl IH]; intros p k.
  - rewrite skipn_nil, firstn_nil. constructor.
  - destruct p as [|p].
    + cbn [skipn]. destruct k as [|k]; cbn [firstn]; [constructor|].
      constructor; [exact Hx|]. apply (IH 0%nat k).
    + cbn [skipn]. apply IH.
Qed.

(** X21: on a buffer without a zero unit, conversion commutes with
    [substr]: the string of [substr(pos, n)] is the same slice, [pos] bytes
    in and [min(n, length() - pos)] bytes long, of the string of the whole
    buffer. *)
Theorem encode_substr (s : ustring) (pos n : Z) :
  sentinel_inv s -> representable s ->
  Forall is_uint16 (units s) -> Forall nonzero (units s) ->
  0 <= pos < length s -> 0 <= n <= SIZE_MAX ->
  n = SIZE_MAX \/ pos + n <= SIZE_MAX ->
  exists r out,
    substr s pos n = Ret r
    /\ MakeStandardString s = Ret out
    /\ MakeStandardString r
       = Ret (firstn (Z.to_nat (Z.min n (length s - pos)))
                     (skipn (Z.to_nat pos) out)).
Proof.
  intros Hinv Hr Hu Hnz Hpos Hn Hwrap.
  pose proof (length_units s Hinv Hr) as Hlen.
  pose proof (sentinel_inv_size s Hinv) as Hsz.
  set (k := Z.to_nat (Z.min n (length s - pos))).
  set (us := firstn k (skipn (Z.to_nat pos) (units s))).
  exists (mk_ustring (us ++ [0])), (map narrow_unit (units s)).
  split; [now apply substr_in_range|]. split.
  - rewrite MakeStandardString_spec by assumption.
    now rewrite before_zero_nonzero.
  - rewrite MakeStandardString_spec.
    + rewrite units_snoc, before_zero_nonzero by (now apply Forall_slice).
      unfold us. now rewrite skipn_map, firstn_map.
    + apply sentinel_inv_snoc.
    + unfold representable in *. cbn [_str]. rewrite size_app.
      change (size [0]) with 1. unfold us, size in *.
      rewrite length_firstn, length_skipn. lia.
    + rewrite units_snoc. now apply Forall_slice.
Qed.

Lemma encode_substr_witness :
  exists r out,
    substr (mk_ustring [0x41; 0x4E2D; 0x42; 0]) 1 SIZE_MAX = Ret r
    /\ MakeStandardString (mk_ustring [0x41; 0x4E2D; 0x42; 0]) = Ret out
    /\ MakeStandardString r
       = Ret (firstn (Z.to_nat (Z.min SIZE_MAX
                                 (length (mk_ustring [0x41; 0x4E2D; 0x42; 0]) - 1)))
                     (skipn (Z.to_nat 1) out)).
Proof.
  apply (encode_substr (mk_ustring [0x41; 0x4E2D; 0x42; 0]) 1 SIZE_MAX).
  - inv_by_computation.
  - vm_compute. discriminate.
  - repeat constructor; discriminate.
  - repeat constructor; discriminate.
  - vm_compute. split; [discriminate | reflexivity].
  - vm_compute. split; discriminate.
  - now left.
Defined.
